(** * The export pipeline of [main.py]: fetch, normalise, project, merge

    A shallow embedding of the functions of [main.py] that carry the
    pipeline's logic, and the properties of them that the design document
    states.

    - Part I is the program: one definition per function of [main.py],
      over models of the Python values, strings, dictionaries and dates
      the functions handle.
    - Part II is the vocabulary in which the properties are stated, and
      the inputs of the design document's scenarios.
    - Part III is the properties, function by function; it ends with
      further properties of the same functions and of [load_env],
      [build_headers] and the merge and output steps of [main]. *)

From stdpp Require Import gmap strings list fin_maps sorting.
From ITree Require Import ITree ITreeFacts Events.State Events.StateFacts.
From Stdlib Require Import Ascii ZArith QArith Qcanon Lia.

Local Open Scope Z_scope.

(* ===================================================================== *)
(* ===================================================================== *)
(** * Part I.  The program *)
(* ===================================================================== *)
(* ===================================================================== *)

(* ===================================================================== *)
(** ** Python text *)
(* ===================================================================== *)

(** A [str] is modelled as a [string] whose characters are code points
    below 256.  That is all an HTTP header can carry (header text is
    decoded as latin-1); for field names only equality and order matter. *)
Module PyStr.

(** [c.isspace()] for a code point below 256: TAB..CR, FS..US, SPACE,
    NEL (0x85) and NBSP (0xA0). *)
Definition is_space (c : ascii) : bool :=
  let n := N_of_ascii c in
  ((9 <=? n) && (n <=? 13) || (28 <=? n) && (n <=? 32)
   || (n =? 133) || (n =? 160))%N.

(** [c in chars] *)
Fixpoint mem (c : ascii) (chars : string) : bool :=
  match chars with
  | EmptyString => false
  | String c' rest => Ascii.eqb c c' || mem c rest
  end.

Fixpoint lstrip_with (p : ascii -> bool) (s : string) : string :=
  match s with
  | EmptyString => EmptyString
  | String c rest => if p c then lstrip_with p rest else s
  end.

Fixpoint rstrip_with (p : ascii -> bool) (s : string) : string :=
  match s with
  | EmptyString => EmptyString
  | String c rest =>
      match rstrip_with p rest with
      | EmptyString => if p c then EmptyString else String c EmptyString
      | kept => String c kept
      end
  end.

Definition strip_with (p : ascii -> bool) (s : string) : string :=
  rstrip_with p (lstrip_with p s).

(** [s.strip()] *)
Definition strip (s : string) : string := strip_with is_space s.

(** [s.strip(chars)] *)
Definition strip_chars (chars s : string) : string :=
  strip_with (fun c => mem c chars) s.

(** [s.split(sep)] for a one-character separator: always at least one
    piece. *)
Fixpoint split (sep : ascii) (s : string) : list string :=
  match s with
  | EmptyString => [EmptyString]
  | String c rest =>
      if Ascii.eqb c sep then EmptyString :: split sep rest
      else match split sep rest with
           | piece :: pieces => String c piece :: pieces
           | [] => [String c EmptyString]
           end
  end.

(** [s.split(sep, 1)] when [sep in s]: the text before and after the
    first [sep]; [None] when [sep not in s]. *)
Fixpoint split_once (sep : ascii) (s : string) : option (string * string) :=
  match s with
  | EmptyString => None
  | String c rest =>
      if Ascii.eqb c sep then Some (EmptyString, rest)
      else match split_once sep rest with
           | Some (before, after) => Some (String c before, after)
           | None => None
           end
  end.

(** [s.startswith(prefix)] *)
Fixpoint startswith (prefix s : string) : bool :=
  match prefix, s with
  | EmptyString, _ => true
  | String _ _, EmptyString => false
  | String a prefix', String b s' => Ascii.eqb a b && startswith prefix' s'
  end.

(** [s[n:]] *)
Fixpoint drop (n : nat) (s : string) : string :=
  match n, s with
  | O, _ => s
  | S n', String _ rest => drop n' rest
  | S _, EmptyString => EmptyString
  end.

(** [c.lower()] for a code point below 256: A..Z and the accented
    capitals 0xC0..0xDE (0xD7, the multiplication sign, apart). *)
Definition lower_char (c : ascii) : ascii :=
  let n := N_of_ascii c in
  if ((65 <=? n) && (n <=? 90) || (192 <=? n) && (n <=? 214)
      || (216 <=? n) && (n <=? 222))%N
  then ascii_of_N (n + 32) else c.

(** [s.lower()] *)
Fixpoint lower (s : string) : string :=
  match s with
  | EmptyString => EmptyString
  | String c rest => String (lower_char c) (lower rest)
  end.

(** The line boundaries of [str.splitlines] below 256: LF, VT, FF, CR,
    FS, GS, RS and NEL. *)
Definition is_linebreak (c : ascii) : bool :=
  let n := N_of_ascii c in
  ((10 <=? n) && (n <=? 13) || (28 <=? n) && (n <=? 30) || (n =? 133))%N.

(** The pieces between line boundaries, CR LF being one boundary; the
    last piece is what follows the last boundary. *)
Fixpoint line_pieces (s : string) : list string :=
  match s with
  | EmptyString => [EmptyString]
  | String c rest =>
      if is_linebreak c then
        EmptyString ::
          match rest with
          | String c' rest' =>
              if (N_of_ascii c =? 13)%N && (N_of_ascii c' =? 10)%N
              then line_pieces rest' else line_pieces rest
          | EmptyString => line_pieces rest
          end
      else match line_pieces rest with
           | piece :: pieces => String c piece :: pieces
           | [] => [String c EmptyString]
           end
  end.

(** [s.splitlines()]: no empty last line after a final boundary. *)
Definition splitlines (s : string) : list string :=
  let pieces := line_pieces s in
  match last pieces with
  | Some EmptyString => take (length pieces - 1) pieces
  | _ => pieces
  end.

(** [sep.join(parts)] *)
Fixpoint join (sep : string) (parts : list string) : string :=
  match parts with
  | [] => EmptyString
  | [part] => part
  | part :: rest => part +:+ sep +:+ join sep rest
  end.

End PyStr.

Definition comma : ascii := "," %char.
Definition semicolon : ascii := ";" %char.
Definition equals_sign : ascii := "=" %char.
Definition double_quote : string := String (ascii_of_N 34) EmptyString.

(* ===================================================================== *)
(** ** Python values *)
(* ===================================================================== *)

(** A [float].  The code never computes with floats: it passes them
    through, tests their truth value, converts them with [int] and uses
    them as dictionary keys.  A finite float is therefore carried as the
    rational number it denotes. *)
Inductive pyfloat : Type :=
| FFinite (q : Qc)
| FInf (negative : bool)
| FNaN.

(** What [response.json()] and [yaml.safe_load] return.  A [dict] keeps
    its keys in insertion order, so it is a list of bindings. *)
#[local] Set Warnings "-register-all".
Inductive value : Type :=
| VNone
| VBool (b : bool)
| VInt (z : Z)
| VFloat (f : pyfloat)
| VStr (s : string)
| VList (items : list value)
| VDict (bindings : list (string * value)).

(** [Dict[str, Any]] *)
Definition record : Type := list (string * value).

Definition is_dict (v : value) : bool :=
  match v with VDict _ => true | _ => false end.

Definition is_list (v : value) : bool :=
  match v with VList _ => true | _ => false end.

Definition is_none (v : value) : bool :=
  match v with VNone => true | _ => false end.

(** [bool(v)] *)
Definition truthy (v : value) : bool :=
  match v with
  | VNone => false
  | VBool b => b
  | VInt z => negb (z =? 0)
  | VFloat (FFinite q) => negb (Qeq_bool q 0)
  | VFloat _ => true
  | VStr s => negb (String.eqb s EmptyString)
  | VList items => match items with [] => false | _ => true end
  | VDict bindings => match bindings with [] => false | _ => true end
  end.

(** What the code can raise. *)
Inductive exn : Type :=
| TypeError | AttributeError | ValueError | OverflowError
| HTTPError | ConnectionError | JSONDecodeError.

Inductive result (A : Type) : Type :=
| Ok (a : A)
| Raise (e : exn).
Arguments Ok {A} a.
Arguments Raise {A} e.

Definition rbind {A B : Type} (r : result A) (k : A -> result B) : result B :=
  match r with
  | Ok a => k a
  | Raise e => Raise e
  end.

Notation "'let*' x ':=' r 'in' k" := (rbind r (fun x => k))
  (at level 10, x pattern, r at level 100, k at level 200).

(* ===================================================================== *)
(** ** Dictionaries with text keys *)
(* ===================================================================== *)

Module Dict.

(** The value bound to [key], if any. *)
Fixpoint find (d : record) (key : string) : option value :=
  match d with
  | [] => None
  | (k, v) :: rest => if String.eqb k key then Some v else find rest key
  end.

(** [d.get(key, default)] *)
Definition get_default (d : record) (key : string) (default : value) : value :=
  match find d key with
  | Some v => v
  | None => default
  end.

(** [d.get(key)]: Python's [None] when [key] is absent. *)
Definition get (d : record) (key : string) : value := get_default d key VNone.

(** [d[key] = v]: a bound key keeps its position, a new one goes last. *)
Fixpoint set (d : record) (key : string) (v : value) : record :=
  match d with
  | [] => [(key, v)]
  | (k, w) :: rest =>
      if String.eqb k key then (k, v) :: rest else (k, w) :: set rest key v
  end.

(** [list(d.keys())] *)
Definition keys (d : record) : list string := d.*1.

(** [{key: f(key) for key in ks}] *)
Definition comprehension (f : string -> value) (ks : list string) : record :=
  foldl (fun d key => set d key (f key)) [] ks.

(** [{**d, **e}] *)
Definition overlay (d e : record) : record :=
  foldl (fun acc kv => set acc kv.1 kv.2) d e.

End Dict.

(* ===================================================================== *)
(** ** [parse_link_header] (lines 57-70) *)
(* ===================================================================== *)

(** The body of [for part in link_header.split(",")], on the [links]
    built so far.  [rel.split("=", 1)[1]] is the text after the first
    [=]; there is one, since [rel] starts with [rel=]. *)
Definition parse_link_part (links : gmap string string) (part : string)
  : gmap string string :=
  match PyStr.split_once semicolon part with
  | None => links
  | Some (url_part, rel_part) =>
      let url := PyStr.strip_chars "<>" (PyStr.strip url_part) in
      let rel := PyStr.strip rel_part in
      if PyStr.startswith "rel=" rel then
        match PyStr.split_once equals_sign rel with
        | Some (_, quoted) =>
            <[PyStr.strip_chars double_quote quoted := url]> links
        | None => links
        end
      else links
  end.

(** [link_header] is [response.headers.get("Link")]: [None] when the
    response has no such header. *)
Definition parse_link_header (link_header : option string) : gmap string string :=
  match link_header with
  | None => ∅
  | Some EmptyString => ∅
  | Some text => foldl parse_link_part ∅ (PyStr.split comma text)
  end.

(* ===================================================================== *)
(** ** [extract_records] (lines 73-81) *)
(* ===================================================================== *)

(** [[item for item in items if isinstance(item, dict)]] *)
Fixpoint dict_items (items : list value) : list record :=
  match items with
  | [] => []
  | VDict d :: rest => d :: dict_items rest
  | _ :: rest => dict_items rest
  end.

Definition container_keys : list string := ["data"; "items"; "results"].

(** The [for key in ("data", "items", "results")] loop: the list under
    the first key whose value is a list. *)
Fixpoint first_container (payload : record) (keys : list string)
  : option (list value) :=
  match keys with
  | [] => None
  | key :: rest =>
      match Dict.get payload key with
      | VList items => Some items
      | _ => first_container payload rest
      end
  end.

Definition extract_records (payload : value) : list record :=
  match payload with
  | VList items => dict_items items
  | VDict d =>
      match first_container d container_keys with
      | Some items => dict_items items
      | None => [d]
      end
  | _ => []
  end.

(* ===================================================================== *)
(** ** [fetch_paginated] (lines 84-95) *)
(* ===================================================================== *)

(** What the code reads of a [requests.Response]: the status that
    [raise_for_status] tests, the body ([None] when it is not JSON, on
    which [response.json()] raises) and the [Link] header, if any. *)
Record response : Type := {
  status_code : Z;
  json : option value;
  link_header : option string;
}.

(** One [requests.get(url, headers=..., params=..., timeout=30)]. *)
Record request : Type := {
  req_url : string;
  req_headers : list (string * string);
  req_params : option record;
}.

(** The program talks to the server through one event; the answer is the
    response, or the exception [requests.get] raises. *)
Variant httpE : Type -> Type :=
| Get (req : request) : httpE (result response).

(** [response.raise_for_status()] raises on a 4xx or 5xx status. *)
Definition raise_for_status (resp : response) : result unit :=
  if (400 <=? status_code resp) && (status_code resp <? 600)
  then Raise HTTPError else Ok ().

(** [response.json()] *)
Definition response_json (resp : response) : result value :=
  match json resp with
  | Some payload => Ok payload
  | None => Raise JSONDecodeError
  end.

(** The test of [while next_url:]: the URL, when it is neither [None]
    nor empty. *)
Definition truthy_url (next_url : option string) : option string :=
  match next_url with
  | Some EmptyString | None => None
  | Some url => Some url
  end.

(** The state of the loop: [records], [next_url], [next_params]. *)
Definition fetch_state : Type := list record * option string * option record.

(** What the loop body does with the response: the four statements after
    [requests.get]. *)
Definition fetch_page (records : list record) (resp : response)
  : result fetch_state :=
  let* _ := raise_for_status resp in
  let* payload := response_json resp in
  let links := parse_link_header (link_header resp) in
  Ok (records ++ extract_records payload, links !! "next", None).

(** The test and the body of [while next_url:]; on the left the state of
    the next iteration, on the right what the function returns or
    raises. *)
Definition fetch_body (headers : list (string * string)) (st : fetch_state)
  : itree httpE (fetch_state + result (list record)) :=
  let '(records, next_url, next_params) := st in
  match truthy_url next_url with
  | None => Ret (inr (Ok records))
  | Some url =>
      ITree.bind
        (ITree.trigger
           (Get {| req_url := url; req_headers := headers;
                   req_params := next_params |}))
        (fun answer =>
           match (let* resp := answer in fetch_page records resp) with
           | Ok st' => Ret (inl st')
           | Raise e => Ret (inr (Raise e))
           end)
  end.

Definition fetch_paginated (url : string) (headers : list (string * string))
    (params : record) : itree httpE (result (list record)) :=
  ITree.iter (fetch_body headers) ([], Some url, Some params).

(* ===================================================================== *)
(** ** [filter_fields] (lines 98-102) *)
(* ===================================================================== *)

(** [{field: record.get(field) for field in fields}] *)
Definition project (fields : list string) (rec : record) : record :=
  Dict.comprehension (Dict.get rec) fields.

Definition filter_fields (records : list record) (fields : list string)
  : list record :=
  foldl (fun filtered rec => filtered ++ [project fields rec]) [] records.

(** The same loop over a store of dictionaries, where a record is a
    reference and [{...}] allocates: this is where "a new record" and
    "not mutated" can be told apart from their negations. *)
Module Store.

Abbreviation ref := nat.
Abbreviation store := (list record).

(** A fresh dictionary holding [d]. *)
Definition alloc (d : record) (st : store) : ref * store :=
  (length st, st ++ [d]).

(** [filtered.append({field: record.get(field) for field in fields})]
    for each [record]; [None] only on a reference that is not in the
    store, which Python cannot produce. *)
Fixpoint filter_fields_loop (records : list ref) (fields : list string)
    (filtered : list ref) (st : store) : option (list ref * store) :=
  match records with
  | [] => Some (filtered, st)
  | r :: rest =>
      match st !! r with
      | None => None
      | Some d =>
          let (fresh, st') := alloc (project fields d) st in
          filter_fields_loop rest fields (filtered ++ [fresh]) st'
      end
  end.

Definition filter_fields (records : list ref) (fields : list string)
    (st : store) : option (list ref * store) :=
  filter_fields_loop records fields [] st.

End Store.

(* ===================================================================== *)
(** ** [merge_records] (lines 105-129) *)
(* ===================================================================== *)

(** The slot of a [dict] a key goes to: two keys share a slot when they
    have the same [hash] and are [==].  [True], [1] and [1.0] are one
    key, a number never equals text, and [None] is a key.  ([NaN] is a
    key of its own: the [json] module yields one [NaN] object, which a
    [dict] finds by identity.) *)
Inductive key : Type :=
| KNone
| KNum (q : Qc)
| KInf (negative : bool)
| KNaN
| KStr (s : string).

Global Instance key_eq_dec : EqDecision key.
Proof. solve_decision. Defined.

Definition key_to_sum (k : key) : unit + Qc + bool + unit + string :=
  match k with
  | KNone => inl (inl (inl (inl ())))
  | KNum q => inl (inl (inl (inr q)))
  | KInf b => inl (inl (inr b))
  | KNaN => inl (inr ())
  | KStr s => inr s
  end.

Definition key_of_sum (s : unit + Qc + bool + unit + string) : key :=
  match s with
  | inl (inl (inl (inl _))) => KNone
  | inl (inl (inl (inr q))) => KNum q
  | inl (inl (inr b)) => KInf b
  | inl (inr _) => KNaN
  | inr s => KStr s
  end.

Global Instance key_countable : Countable key.
Proof.
  refine (inj_countable' key_to_sum key_of_sum _).
  intros []; reflexivity.
Defined.

(** [hash(v)] succeeds on [None], numbers and text, and raises
    [TypeError] on a [list] or a [dict]; [hash_key v] is then [None]. *)
Definition hash_key (v : value) : option key :=
  match v with
  | VNone => Some KNone
  | VBool b => Some (KNum (Q2Qc (inject_Z (Z.b2z b))))
  | VInt z => Some (KNum (Q2Qc (inject_Z z)))
  | VFloat (FFinite q) => Some (KNum q)
  | VFloat (FInf negative) => Some (KInf negative)
  | VFloat FNaN => Some KNaN
  | VStr s => Some (KStr s)
  | VList _ | VDict _ => None
  end.

(** The first loop: [lookup.setdefault(key, []).append(item)] for each
    [item] of [secondary] whose [merge_key] is not [None]. *)
Fixpoint build_lookup (secondary : list record) (merge_key : string)
    (lookup : gmap key (list record)) : result (gmap key (list record)) :=
  match secondary with
  | [] => Ok lookup
  | item :: rest =>
      let key := Dict.get item merge_key in
      if is_none key then build_lookup rest merge_key lookup
      else match hash_key key with
           | None => Raise TypeError
           | Some k =>
               build_lookup rest merge_key
                 (<[k := default [] (lookup !! k) ++ [item]]> lookup)
           end
  end.

(** The second loop, on the [merged] list built so far; [lookup.get(key)]
    hashes [key], whatever [lookup] holds. *)
Fixpoint merge_loop (primary : list record) (merge_key : string)
    (lookup : gmap key (list record)) (merged : list record)
  : result (list record) :=
  match primary with
  | [] => Ok merged
  | base :: rest =>
      match hash_key (Dict.get base merge_key) with
      | None => Raise TypeError
      | Some k =>
          match lookup !! k with
          | None | Some [] => merge_loop rest merge_key lookup (merged ++ [base])
          | Some extras =>
              merge_loop rest merge_key lookup
                (merged ++ (Dict.overlay base <$> extras))
          end
      end
  end.

Definition merge_records (primary secondary : list record) (merge_key : string)
  : result (list record) :=
  match secondary with
  | [] => Ok primary
  | _ =>
      let* lookup := build_lookup secondary merge_key ∅ in
      merge_loop primary merge_key lookup []
  end.

(* ===================================================================== *)
(** ** Calendar dates *)
(* ===================================================================== *)

(** [datetime.date], with the day arithmetic of the standard library:
    a date is numbered by its proleptic Gregorian ordinal, day 1 being
    0001-01-01. *)
Record date : Type := { year : Z; month : Z; day : Z }.

Definition MAXORDINAL : Z := 3652059.

Definition DAYS_IN_MONTH : list Z :=
  [-1; 31; 28; 31; 30; 31; 30; 31; 31; 30; 31; 30; 31].

Definition DAYS_BEFORE_MONTH : list Z :=
  [-1; 0; 31; 59; 90; 120; 151; 181; 212; 243; 273; 304; 334].

Definition is_leap (y : Z) : bool :=
  (y mod 4 =? 0) && (negb (y mod 100 =? 0) || (y mod 400 =? 0)).

Definition days_before_year (y : Z) : Z :=
  let y := y - 1 in y * 365 + y / 4 - y / 100 + y / 400.

Definition days_in_month (y m : Z) : Z :=
  if (m =? 2) && is_leap y then 29 else DAYS_IN_MONTH !!! Z.to_nat m.

Definition days_before_month (y m : Z) : Z :=
  DAYS_BEFORE_MONTH !!! Z.to_nat m + Z.b2z ((2 <? m) && is_leap y).

(** [d.toordinal()] *)
Definition toordinal (d : date) : Z :=
  days_before_year (year d) + days_before_month (year d) (month d) + day d.

(** The month and day of the [n]-th day (from 0) of a year: the end of
    [date.fromordinal]. *)
Definition month_day (leapyear : bool) (n : Z) : Z * Z :=
  let m := Z.shiftr (n + 50) 5 in
  let preceding := DAYS_BEFORE_MONTH !!! Z.to_nat m + Z.b2z ((2 <? m) && leapyear) in
  if n <? preceding
  then
    let m' := m - 1 in
    let preceding' :=
      preceding - (DAYS_IN_MONTH !!! Z.to_nat m' + Z.b2z ((m' =? 2) && leapyear)) in
    (m', n - preceding' + 1)
  else (m, n - preceding + 1).

(** [date.fromordinal(n)] *)
Definition fromordinal (n : Z) : date :=
  let n := n - 1 in
  let n400 := n / 146097 in
  let n := n mod 146097 in
  let n100 := n / 36524 in
  let n := n mod 36524 in
  let n4 := n / 1461 in
  let n := n mod 1461 in
  let n1 := n / 365 in
  let n := n mod 365 in
  let y := n400 * 400 + 1 + (n100 * 100 + n4 * 4 + n1) in
  if (n1 =? 4) || (n100 =? 4)
  then {| year := y - 1; month := 12; day := 31 |}
  else
    let leapyear := (n1 =? 3) && (negb (n4 =? 24) || (n100 =? 3)) in
    let (m, d) := month_day leapyear n in
    {| year := y; month := m; day := d |}.

(** [d + dt.timedelta(days=days)]: the [timedelta] takes at most
    999999999 days, the sum has to be a day of the years 1 to 9999. *)
Definition date_add_days (d : date) (days : Z) : result date :=
  if 999999999 <? Z.abs days then Raise OverflowError
  else
    let o := toordinal d + days in
    if (0 <? o) && (o <=? MAXORDINAL) then Ok (fromordinal o)
    else Raise OverflowError.

(** [a < b] on dates compares year, month and day in that order. *)
Definition date_ltb (a b : date) : bool :=
  (year a <? year b)
  || (year a =? year b)
     && ((month a <? month b) || (month a =? month b) && (day a <? day b)).

(* ===================================================================== *)
(** ** [resolve_date_range] (lines 43-54) *)
(* ===================================================================== *)

(** [obj.get(key, default)] on a value that may not be a [dict]. *)
Definition py_get (obj : value) (key : string) (default : value) : result value :=
  match obj with
  | VDict d => Ok (Dict.get_default d key default)
  | _ => Raise AttributeError
  end.

Section Resolve.

(** The two parsers of the standard library are taken as given:
    [int] on text and [dt.date.fromisoformat]. *)
Variable int_of_text : string -> result Z.
Variable fromisoformat : value -> result date.

(** [int(v)] *)
Definition py_int (v : value) : result Z :=
  match v with
  | VBool b => Ok (Z.b2z b)
  | VInt z => Ok z
  | VFloat (FFinite q) => Ok (Z.quot (Qnum q) (Z.pos (Qden q)))
  | VFloat (FInf _) => Raise OverflowError
  | VFloat FNaN => Raise ValueError
  | VStr s => int_of_text s
  | VNone | VList _ | VDict _ => Raise TypeError
  end.

(** [today] is what [dt.date.today()] returns when the function runs. *)
Definition resolve_date_range (config : value) (range_name : string)
    (today : date) : result (date * date) :=
  let* date_ranges := py_get config "date_ranges" (VDict []) in
  let* manual_ranges := py_get date_ranges "manual" (VDict []) in
  let* manual := py_get manual_ranges range_name (VDict []) in
  let* manual_start := py_get manual "start" VNone in
  let* manual_end := py_get manual "end" VNone in
  if truthy manual_start && truthy manual_end
  then
    let* start := fromisoformat manual_start in
    let* end_ := fromisoformat manual_end in
    Ok (start, end_)
  else
    let* offsets := py_get date_ranges range_name (VDict []) in
    let* start_offset_days := py_get offsets "start_offset_days" (VInt 0) in
    let* start_offset := py_int start_offset_days in
    let* end_offset_days := py_get offsets "end_offset_days" (VInt 0) in
    let* end_offset := py_int end_offset_days in
    let* start := date_add_days today start_offset in
    let* end_ := date_add_days today end_offset in
    Ok (start, end_).

End Resolve.

(* ===================================================================== *)
(** ** The CSV sink: [write_csv] (lines 132-138) and its call in [main]
       (lines 234-247) *)
(* ===================================================================== *)

(** [sorted(names)] *)
Definition sorted (names : list string) : list string :=
  merge_sort String.le names.

(** What [write_csv] hands to the [csv.DictWriter]: the header, then one
    row per record. *)
Definition write_csv (records : list record) (fields : list string)
  : list string * list record :=
  (fields, project fields <$> records).

(** [if output_fields: merged_records = filter_fields(merged_records,
    output_fields)] *)
Definition output_projection (merged_records : list record)
    (output_fields : list string) : list record :=
  match output_fields with
  | [] => merged_records
  | _ => filter_fields merged_records output_fields
  end.

(** The third argument of the call of [write_csv]:
    [output_fields or sorted(merged_records[0].keys()) if merged_records
    else []].  A conditional expression binds weaker than [or]: Python
    reads this as [(output_fields or sorted(...)) if merged_records
    else []]. *)
Definition csv_fieldnames (output_fields : list string)
    (merged_records : list record) : list string :=
  match merged_records with
  | [] => []
  | first :: _ =>
      match output_fields with
      | [] => sorted (Dict.keys first)
      | _ => output_fields
      end
  end.

(** Lines 234-247 of [main] for the CSV format. *)
Definition export_csv (merged_records : list record) (output_fields : list string)
  : list string * list record :=
  let merged_records := output_projection merged_records output_fields in
  write_csv merged_records (csv_fieldnames output_fields merged_records).

(* ===================================================================== *)
(** ** [load_env] (lines 24-34) *)
(* ===================================================================== *)

(** What a line of the file asks to set, if anything: the loop body up
    to the call of [os.environ.setdefault].  Blank lines, lines that
    start with [#] and lines without [=] ask for nothing. *)
Definition env_assignment (line : string) : option (string * string) :=
  let raw := PyStr.strip line in
  match raw with
  | EmptyString => None
  | _ =>
      if PyStr.startswith "#" raw then None
      else match PyStr.split_once equals_sign raw with
           | None => None
           | Some (key, value) =>
               Some (PyStr.strip key,
                     PyStr.strip_chars double_quote (PyStr.strip value))
           end
  end.

Section Environ.

(** [os.environ] is a mapping from names to values.  Setting a new name
    goes through the operating system, which refuses some names and
    values; what it raises then is taken as given. *)
Variable E : Type.
Variable putenv : string -> string -> option E.

(** [os.environ.setdefault(key, value)]: a name that is set keeps its
    value.  The environment is returned with what was raised, if
    anything. *)
Definition environ_setdefault (environ : gmap string string)
    (key value : string) : gmap string string * option E :=
  match environ !! key with
  | Some _ => (environ, None)
  | None =>
      match putenv key value with
      | Some e => (environ, Some e)
      | None => (<[key := value]> environ, None)
      end
  end.

(** The [for line in ...] loop; it ends at the first exception. *)
Fixpoint load_env_lines (lines : list string) (environ : gmap string string)
  : gmap string string * option E :=
  match lines with
  | [] => (environ, None)
  | line :: rest =>
      match env_assignment line with
      | None => load_env_lines rest environ
      | Some (key, value) =>
          match environ_setdefault environ key value with
          | (environ', None) => load_env_lines rest environ'
          | (environ', Some e) => (environ', Some e)
          end
      end
  end.

(** [file] is the text of the file at [path], [None] when
    [path.exists()] is false.  The text is taken with characters below
    256, as all text here is. *)
Definition load_env (file : option string) (environ : gmap string string)
  : gmap string string * option E :=
  match file with
  | None => (environ, None)
  | Some text => load_env_lines (PyStr.splitlines text) environ
  end.

End Environ.

(* ===================================================================== *)
(** ** [build_headers] (lines 157-164) *)
(* ===================================================================== *)

Definition build_headers (token token_header : string) : gmap string string :=
  let headers : gmap string string := {[ "Accept" := "application/json" ]} in
  match token with
  | EmptyString => headers
  | _ =>
      if String.eqb (PyStr.lower token_header) "authorization"
         && negb (PyStr.startswith "bearer " (PyStr.lower token))
      then <[token_header := "Bearer " +:+ token]> headers
      else <[token_header := token]> headers
  end.

(* ===================================================================== *)
(** ** [main]: the merge of the sources (lines 225-232) and the names of
       the output (lines 237-238 and 255) *)
(* ===================================================================== *)

(** [fetched.get(primary_source_name, [])], [fetched] being the records
    of each source in the order of declaration. *)
Fixpoint fetched_get (fetched : list (string * list record)) (name : string)
  : list record :=
  match fetched with
  | [] => []
  | (source_name, records) :: rest =>
      if String.eqb source_name name then records else fetched_get rest name
  end.

(** [for source_name, records in fetched.items()], on the
    [merged_records] built so far. *)
Fixpoint merge_sources_loop (fetched : list (string * list record))
    (primary_source_name merge_key : string) (merged_records : list record)
  : result (list record) :=
  match fetched with
  | [] => Ok merged_records
  | (source_name, records) :: rest =>
      if String.eqb source_name primary_source_name
      then merge_sources_loop rest primary_source_name merge_key merged_records
      else
        let* merged_records := merge_records merged_records records merge_key in
        merge_sources_loop rest primary_source_name merge_key merged_records
  end.

Definition merge_sources (fetched : list (string * list record))
    (primary_source_name merge_key : string) : result (list record) :=
  let primary_records := fetched_get fetched primary_source_name in
  merge_sources_loop fetched primary_source_name merge_key primary_records.

(** ["/".join(part.strip("/") for part in [prefix, filename] if part)] *)
Definition s3_key (prefix filename : string) : string :=
  PyStr.join "/"
    (PyStr.strip_chars "/"
       <$> filter (fun part => part ≠ EmptyString) [prefix; filename]).

(* ===================================================================== *)
(* ===================================================================== *)
(** * Part II.  The vocabulary of the properties *)
(* ===================================================================== *)
(* ===================================================================== *)

(* ===================================================================== *)
(** ** Records and joins *)
(* ===================================================================== *)

(** A Record of the design document's data model: a mapping from field
    names to scalar-or-null values. *)
Definition is_scalar (v : value) : bool :=
  match v with VList _ | VDict _ => false | _ => true end.

Definition is_Record (r : record) : Prop :=
  NoDup (Dict.keys r) ∧ Forall (fun kv => is_scalar kv.2 = true) r.

Global Instance is_Record_dec (r : record) : Decision (is_Record r).
Proof. unfold is_Record. apply _. Defined.

(** The field names of a comprehension: each name once, in the order of
    its first occurrence. *)
Definition first_occurrences (names : list string) : list string :=
  reverse (remove_dups (reverse names)).

(** [a == b] for two dictionary keys. *)
Definition key_eqb (a b : value) : bool :=
  match hash_key a, hash_key b with
  | Some ka, Some kb => bool_decide (ka = kb)
  | _, _ => false
  end.

(** [extra] joins [base] on [merge_key]: its join value is not [None]
    and equals that of [base]. *)
Definition joins (merge_key : string) (base extra : record) : bool :=
  negb (is_none (Dict.get extra merge_key))
  && key_eqb (Dict.get base merge_key) (Dict.get extra merge_key).

(** [item] is filed under [k] in the lookup. *)
Definition filed_under (merge_key : string) (k : key) (item : record) : Prop :=
  is_none (Dict.get item merge_key) = false
  ∧ hash_key (Dict.get item merge_key) = Some k.

(** The secondary records that join [base], in arrival order. *)
Definition matches (secondary : list record) (merge_key : string)
    (base : record) : list record :=
  filter (fun extra => joins merge_key base extra = true) secondary.

(** What one primary record contributes to the output. *)
Definition contribution (secondary : list record) (merge_key : string)
    (base : record) : list record :=
  match matches secondary merge_key base with
  | [] => [base]
  | extras => Dict.overlay base <$> extras
  end.

(* ===================================================================== *)
(** ** Link headers *)
(* ===================================================================== *)

(** The pair a segment stands for: split on the first semicolon; the URL
    is the first portion without surrounding blanks and angle brackets;
    the relation is what follows [rel=] in the second portion, without
    surrounding quotes.  A segment with no semicolon, or whose second
    portion does not start with [rel=], stands for no pair. *)
Definition link_pair (part : string) : option (string * string) :=
  match PyStr.split_once semicolon part with
  | None => None
  | Some (url_part, rel_part) =>
      let rel := PyStr.strip rel_part in
      if PyStr.startswith "rel=" rel
      then Some (PyStr.strip_chars double_quote (PyStr.drop 4 rel),
                 PyStr.strip_chars "<>" (PyStr.strip url_part))
      else None
  end.

(** The URL of the last pair whose relation is [rel]. *)
Definition last_url (rel : string) (pairs : list (string * string)) : option string :=
  snd <$> last (filter (fun p => p.1 = rel) pairs).

(* ===================================================================== *)
(** ** A server with a finite sequence of responses *)
(* ===================================================================== *)

(** The server answers from a finite sequence of responses, one per
    call, and keeps the calls it saw; past the end of the sequence the
    connection fails. *)
Definition server_state : Type := list response * list request.

Definition serve : httpE ~> Monads.stateT server_state (itree void1) :=
  fun _ e st =>
    match e with
    | Get req =>
        match st.1 with
        | resp :: rest => Ret ((rest, st.2 ++ [req]), Ok resp)
        | [] => Ret (([], st.2 ++ [req]), Raise ConnectionError)
        end
    end.

(** The "next" URL of a page the loop would follow: the target of the
    "next" relation of its [Link] header, when there is one and it is
    not empty. *)
Definition next_link (resp : response) : option string :=
  truthy_url (parse_link_header (link_header resp) !! "next").

(** A page that [fetch_page] accepts: a status below 400 or above 599,
    and a JSON body. *)
Definition page_ok (resp : response) : Prop :=
  raise_for_status resp = Ok () ∧ is_Some (json resp).

(** The normalised records of a page. *)
Definition page_records (resp : response) : list record :=
  match json resp with
  | Some payload => extract_records payload
  | None => []
  end.

Definition request_of (headers : list (string * string)) (url : string)
    (params : option record) : request :=
  {| req_url := url; req_headers := headers; req_params := params |}.

(** The requests that follow the pages [pages]: each on the "next" URL
    of a page, without parameters. *)
Definition follow_ups (headers : list (string * string)) (pages : list response)
  : list request :=
  (fun resp => request_of headers (default EmptyString (next_link resp)) None)
    <$> pages.

(* ===================================================================== *)
(** ** Dates and offsets *)
(* ===================================================================== *)

(** A date [datetime.date] can hold. *)
Definition valid_date (d : date) : Prop :=
  1 <= year d <= 9999 ∧ 1 <= month d <= 12
  ∧ 1 <= day d <= days_in_month (year d) (month d).

(** The offset a range declares under [key]: the integer bound to it, or
    0 when the key is absent. *)
Definition declared_offset (offsets : record) (key : string) (days : Z) : Prop :=
  Dict.find offsets key = Some (VInt days)
  ∨ (Dict.find offsets key = None ∧ days = 0).

(** What [month_day] has to satisfy on day [n] (from 0) of a year. *)
Definition month_day_ok (leapyear : bool) (n : Z) : bool :=
  let (m, d) := month_day leapyear n in
  (1 <=? m) && (m <=? 12) && (1 <=? d)
  && (d <=? DAYS_IN_MONTH !!! Z.to_nat m + Z.b2z ((m =? 2) && leapyear))
  && (DAYS_BEFORE_MONTH !!! Z.to_nat m + Z.b2z ((2 <? m) && leapyear) + d
      =? n + 1).

(* ===================================================================== *)
(** ** The inputs of the design document's scenarios *)
(* ===================================================================== *)

Definition scenario_base : record := [("id", VInt 1); ("name", VStr "a")].

Definition scenario_primary : list record :=
  [scenario_base; [("id", VInt 2); ("name", VStr "b")]].

Definition scenario_secondary : list record :=
  [[("id", VInt 1); ("status", VStr "ok")]].

(** Two secondary records that share [id = 1]. *)
Definition scenario_pair : list record :=
  [[("id", VInt 1); ("status", VStr "ok")];
   [("id", VInt 1); ("status", VStr "late")]].

Definition scenario_config : record :=
  [("date_ranges",
    VDict [("history", VDict [("start_offset_days", VInt (-7));
                              ("end_offset_days", VInt 0)])])].

Definition scenario_today : date := {| year := 2024; month := 6; day := 10 |}.

(** The header of the example. *)
Definition example_link_header : string :=
  "<http://x/2>; rel=" +:+ double_quote +:+ "next" +:+ double_quote
  +:+ ", <http://x/0>; rel=" +:+ double_quote +:+ "prev" +:+ double_quote.

(** A [Link] header with the relation after another parameter. *)
Definition titled_link_header : string :=
  "<http://x/2>; title=" +:+ double_quote +:+ "p2" +:+ double_quote
  +:+ "; rel=" +:+ double_quote +:+ "next" +:+ double_quote.

(** A first page whose [Link] header has a "next" relation with an empty
    target. *)
Definition page_with_empty_next : response :=
  {| status_code := 200;
     json := Some (VDict [("items", VList [VDict [("id", VInt 1)]])]);
     link_header :=
       Some ("<>; rel=" +:+ double_quote +:+ "next" +:+ double_quote) |}.

(** A first page that links to a second one. *)
Definition page_one : response :=
  {| status_code := 200;
     json := Some (VDict [("items", VList [VDict [("id", VInt 1)]])]);
     link_header :=
       Some ("<http://x/2>; rel=" +:+ double_quote +:+ "next" +:+ double_quote) |}.

(** A page with no [Link] header. *)
Definition page_without_link (id : Z) : response :=
  {| status_code := 200;
     json := Some (VDict [("items", VList [VDict [("id", VInt id)]])]);
     link_header := None |}.


(* ===================================================================== *)
(** ** Join values *)
(* ===================================================================== *)

(** The join value of [r] can be hashed: it is not a [list] or a
    [dict]. *)
Definition hashable_join (merge_key : string) (r : record) : Prop :=
  is_Some (hash_key (Dict.get r merge_key)).

Global Instance hashable_join_dec merge_key r : Decision (hashable_join merge_key r).
Proof. unfold hashable_join. apply _. Defined.

(** The key under which the lookup files [item], if it files it. *)
Definition join_key (merge_key : string) (item : record) : option key :=
  if is_none (Dict.get item merge_key) then None
  else hash_key (Dict.get item merge_key).

(** The keys of the lookup, one per secondary record filed. *)
Definition join_keys (merge_key : string) (secondary : list record) : list key :=
  omap (join_key merge_key) secondary.

(* ===================================================================== *)
(** ** Failing answers *)
(* ===================================================================== *)

(** What is wrong with a response, if anything: an error status, or
    else a body that is not JSON. *)
Definition page_error (resp : response) : option exn :=
  if (400 <=? status_code resp) && (status_code resp <? 600)
  then Some HTTPError
  else match json resp with
       | None => Some JSONDecodeError
       | Some _ => None
       end.

(** What goes wrong at the next call to a server that has [answers] left
    to give. *)
Definition answer_error (answers : list response) : option exn :=
  match answers with
  | [] => Some ConnectionError
  | resp :: _ => page_error resp
  end.

(** A page with an error status, and a page that is not JSON. *)
Definition page_unavailable : response :=
  {| status_code := 503; json := Some (VDict [("error", VStr "busy")]);
     link_header := None |}.

Definition page_of_text : response :=
  {| status_code := 200; json := None; link_header := None |}.

(* ===================================================================== *)
(** ** Configurations of the date ranges *)
(* ===================================================================== *)

(** A configuration with fixed dates for "history". *)
Definition manual_config : record :=
  [("date_ranges",
    VDict [("manual",
            VDict [("history", VDict [("start", VStr "2024-01-01");
                                      ("end", VStr "2024-01-31")])]);
           ("history", VDict [("start_offset_days", VInt (-7))])])].

(** A configuration whose [date_ranges] section is empty in the YAML
    file, which loads as [None]. *)
Definition null_config : record := [("date_ranges", VNone)].

(** An offset of ten million days. *)
Definition far_config : record :=
  [("date_ranges",
    VDict [("history", VDict [("start_offset_days", VInt 10000000)])])].

(** [dt.date.fromisoformat] on the two dates of [manual_config]. *)
Definition scenario_fromisoformat (v : value) : result date :=
  match v with
  | VStr "2024-01-01" => Ok {| year := 2024; month := 1; day := 1 |}
  | VStr "2024-01-31" => Ok {| year := 2024; month := 1; day := 31 |}
  | _ => Raise ValueError
  end.

(* ===================================================================== *)
(** ** Padded text *)
(* ===================================================================== *)

(** Every character of [s] is in the class [p]. *)
Fixpoint all_chars (p : ascii -> bool) (s : string) : bool :=
  match s with
  | EmptyString => true
  | String c rest => p c && all_chars p rest
  end.

(** [s] does not start with a character of the class [p]. *)
Definition starts_clean (p : ascii -> bool) (s : string) : bool :=
  match s with
  | EmptyString => true
  | String c _ => negb (p c)
  end.

(** [s] does not end with a character of the class [p]. *)
Fixpoint ends_clean (p : ascii -> bool) (s : string) : bool :=
  match s with
  | EmptyString => true
  | String c EmptyString => negb (p c)
  | String _ rest => ends_clean p rest
  end.

(** [s] has no character of the class [p] at either end: stripping [p]
    leaves it as it is. *)
Definition unpadded (p : ascii -> bool) (s : string) : bool :=
  starts_clean p s && ends_clean p s.

(** Blank text. *)
Definition blank (s : string) : bool := all_chars PyStr.is_space s.

(* ===================================================================== *)
(** ** The lines of an environment file *)
(* ===================================================================== *)

(** An operating system that accepts every name and value. *)
Definition putenv_accepts {E : Type} : string -> string -> option E :=
  fun _ _ => None.

(** The value of the first assignment to [key]. *)
Definition assigned (key : string) (assignments : list (string * string))
  : option string :=
  snd <$> head (filter (fun kv => kv.1 = key) assignments).

(** The double quote, as a class of characters. *)
Definition is_quote (c : ascii) : bool := PyStr.mem c double_quote.

(** Three lines: a comment, a token in quotes and a second token. *)
Definition scenario_env_file : string :=
  "# credentials" +:+ String (ascii_of_N 10)
    (" API_TOKEN = " +:+ double_quote +:+ "abc 123" +:+ double_quote
     +:+ String (ascii_of_N 13) (String (ascii_of_N 10) "API_TOKEN=other")).

(* ===================================================================== *)
(** ** Well-formed [Link] headers *)
(* ===================================================================== *)

(** The angle brackets, as a class of characters. *)
Definition is_bracket (c : ascii) : bool := PyStr.mem c "<>".

(** The text of a link, [<url>; rel="relation"], for a pair of a
    relation and a URL. *)
Definition render_link (pair : string * string) : string :=
  "<" +:+ pair.2 +:+ ">; rel=" +:+ double_quote +:+ pair.1 +:+ double_quote.

(** The header that lists the links, separated by a comma and a
    space. *)
Definition render_links (pairs : list (string * string)) : string :=
  PyStr.join ", " (render_link <$> pairs).

(** What the text of a link can carry: a URL without comma or
    semicolon that neither starts nor ends with an angle bracket, and a
    relation without comma that neither starts nor ends with a double
    quote. *)
Definition clean_link (pair : string * string) : bool :=
  negb (PyStr.mem comma pair.2) && negb (PyStr.mem semicolon pair.2)
  && unpadded is_bracket pair.2
  && negb (PyStr.mem comma pair.1) && unpadded is_quote pair.1.

(* ===================================================================== *)
(** ** Object keys *)
(* ===================================================================== *)

(** The slash, as a class of characters. *)
Definition is_slash (c : ascii) : bool := PyStr.mem c "/".
(* ===================================================================== *)
(* ===================================================================== *)
(** * Part III.  The properties *)
(* ===================================================================== *)
(* ===================================================================== *)

(* ===================================================================== *)
(** ** Facts about dictionaries *)
(* ===================================================================== *)

Module DictFacts.
Import Dict.

Lemma eqb_decide (a b : string) : String.eqb a b = bool_decide (a = b).
Proof.
  destruct (String.eqb_spec a b) as [->|Hne].
  - by rewrite bool_decide_eq_true_2.
  - by rewrite bool_decide_eq_false_2.
Qed.

Lemma find_set d key v key' :
  find (set d key v) key' = if decide (key = key') then Some v else find d key'.
Proof.
  induction d as [|[k w] d IH]; simpl.
  - rewrite eqb_decide. by case_bool_decide; case_decide.
  - rewrite !eqb_decide. case_bool_decide as Hk; simpl; rewrite !eqb_decide.
    + subst k. case_decide; subst.
      * by rewrite bool_decide_eq_true_2.
      * by rewrite bool_decide_eq_false_2.
    + rewrite IH. case_bool_decide; [|done].
      subst k. by rewrite decide_False.
Qed.

Lemma find_None d key : find d key = None ↔ key ∉ keys d.
Proof.
  unfold keys. induction d as [|[k w] d IH]; simpl.
  - split; [intros _; apply not_elem_of_nil | done].
  - rewrite eqb_decide, not_elem_of_cons. case_bool_decide; intuition congruence.
Qed.

Lemma find_Some_elem d key v : find d key = Some v → (key, v) ∈ d.
Proof.
  induction d as [|[k w] d IH]; simpl; [done|].
  rewrite eqb_decide. case_bool_decide.
  - intros [= ->]. subst. apply elem_of_cons. by left.
  - intros ?. apply elem_of_cons. right. auto.
Qed.

Lemma keys_set d key v :
  keys (set d key v) = if decide (key ∈ keys d) then keys d else keys d ++ [key].
Proof.
  unfold keys. induction d as [|[k w] d IH].
  - done.
  - cbn [set]. rewrite eqb_decide. case_bool_decide as Hk; rewrite !fmap_cons; cbn [fst].
    + subst. rewrite decide_True; [done | apply elem_of_cons; by left].
    + rewrite IH. case_decide as Hin.
      * rewrite decide_True; [done | apply elem_of_cons; by right].
      * rewrite decide_False; [done|].
        rewrite not_elem_of_cons. intuition congruence.
Qed.

Lemma NoDup_keys_set d key v : NoDup (keys d) → NoDup (keys (set d key v)).
Proof.
  intros Hd. rewrite keys_set. case_decide; [done|].
  apply NoDup_app. split_and!; [done | | apply NoDup_singleton].
  intros k Hk ->%list_elem_of_singleton. done.
Qed.

Lemma comprehension_snoc f ks key :
  comprehension f (ks ++ [key]) = set (comprehension f ks) key (f key).
Proof. unfold comprehension. by rewrite foldl_app. Qed.

Lemma find_comprehension f ks key :
  find (comprehension f ks) key = if decide (key ∈ ks) then Some (f key) else None.
Proof.
  induction ks as [|k ks IH] using rev_ind.
  - rewrite decide_False; [done | apply not_elem_of_nil].
  - rewrite comprehension_snoc, find_set, IH.
    destruct (decide (k = key)) as [Heq|Hne], (decide (key ∈ ks)) as [Hin|Hin],
      (decide (key ∈ ks ++ [k])) as [Hin'|Hin']; try done;
      rewrite elem_of_app, list_elem_of_singleton in Hin'; intuition congruence.
Qed.

Lemma first_occurrences_snoc ks key :
  first_occurrences (ks ++ [key])
  = if decide (key ∈ ks) then first_occurrences ks
    else first_occurrences ks ++ [key].
Proof.
  unfold first_occurrences. rewrite reverse_snoc. cbn [remove_dups].
  destruct (decide_rel elem_of key (reverse ks)) as [Hin|Hin];
    rewrite elem_of_reverse in Hin.
  - by rewrite decide_True.
  - rewrite decide_False by done. by rewrite reverse_cons.
Qed.

Lemma elem_of_first_occurrences ks key : key ∈ first_occurrences ks ↔ key ∈ ks.
Proof.
  unfold first_occurrences.
  by rewrite elem_of_reverse, elem_of_remove_dups, elem_of_reverse.
Qed.

Lemma first_occurrences_NoDup ks : NoDup ks → first_occurrences ks = ks.
Proof.
  induction ks as [|k ks IH] using rev_ind; [done|].
  intros [Hks [Hk _]]%NoDup_app.
  rewrite first_occurrences_snoc, decide_False, IH; [done..|].
  intros Hin. apply (Hk k Hin). apply list_elem_of_singleton. done.
Qed.

Lemma NoDup_first_occurrences ks : NoDup (first_occurrences ks).
Proof.
  unfold first_occurrences. rewrite reverse_Permutation.
  apply NoDup_remove_dups.
Qed.

Lemma keys_comprehension f ks : keys (comprehension f ks) = first_occurrences ks.
Proof.
  induction ks as [|k ks IH] using rev_ind; [done|].
  rewrite comprehension_snoc, keys_set, first_occurrences_snoc, IH.
  repeat case_decide; try done.
  - exfalso. by rewrite elem_of_first_occurrences in *.
  - exfalso. by rewrite elem_of_first_occurrences in *.
Qed.

Lemma comprehension_ext f g ks :
  (∀ key, key ∈ ks → f key = g key) → comprehension f ks = comprehension g ks.
Proof.
  induction ks as [|k ks IH] using rev_ind; [done|].
  intros Hfg. rewrite !comprehension_snoc, IH, Hfg; [done | set_solver | set_solver].
Qed.

Lemma get_comprehension f ks key : key ∈ ks → get (comprehension f ks) key = f key.
Proof.
  intros Hin. unfold get, get_default.
  by rewrite find_comprehension, decide_True.
Qed.

End DictFacts.

(* ===================================================================== *)
(** ** [extract_records] is total and follows the container policy *)
(* ===================================================================== *)

Lemma dict_items_filter items :
  VDict <$> dict_items items = filter (fun v => is_dict v = true) items.
Proof.
  induction items as [|v items IH]; [done|].
  destruct v; cbn [dict_items]; rewrite ?fmap_cons;
    (rewrite filter_cons_True by done) || (rewrite filter_cons_False by done);
    by rewrite IH.
Qed.

Lemma first_container_Some d pre key post items :
  Forall (fun k => is_list (Dict.get d k) = false) pre →
  Dict.get d key = VList items →
  first_container d (pre ++ key :: post) = Some items.
Proof.
  induction 1 as [|k pre Hk _ IH]; intros Hkey; simpl.
  - by rewrite Hkey.
  - rewrite (IH Hkey). by destruct (Dict.get d k).
Qed.

Lemma first_container_None d keys :
  Forall (fun k => is_list (Dict.get d k) = false) keys →
  first_container d keys = None.
Proof.
  induction 1 as [|k keys Hk _ IH]; simpl; [done|].
  rewrite IH. by destruct (Dict.get d k).
Qed.

(** C5.  [extract_records] is a function of the body alone and returns a
    list of records for every value: a list yields its dictionaries, in
    order; a mapping yields the dictionaries of the first list found under
    "data", "items", "results", in that order, and itself alone when none
    of the three holds a list; anything else yields no record. *)
Theorem extract_records_total :
  (∀ items,
     VDict <$> extract_records (VList items)
     = filter (fun v => is_dict v = true) items)
  ∧ (∀ d pre key post items,
       container_keys = pre ++ key :: post →
       Forall (fun k => is_list (Dict.get d k) = false) pre →
       Dict.get d key = VList items →
       VDict <$> extract_records (VDict d)
       = filter (fun v => is_dict v = true) items)
  ∧ (∀ d,
       Forall (fun k => is_list (Dict.get d k) = false) container_keys →
       extract_records (VDict d) = [d])
  ∧ (∀ payload,
       is_list payload = false → is_dict payload = false →
       extract_records payload = [])
  ∧ container_keys = ["data"; "items"; "results"].
Proof.
  split_and!.
  - intros items. apply dict_items_filter.
  - intros d pre key post items Hkeys Hpre Hkey. unfold extract_records.
    rewrite Hkeys, (first_container_Some _ _ _ _ _ Hpre Hkey).
    apply dict_items_filter.
  - intros d Hnone. unfold extract_records. by rewrite (first_container_None _ _ Hnone).
  - by intros [].
  - reflexivity.
Qed.

(* ===================================================================== *)
(** ** [filter_fields]: projection *)
(* ===================================================================== *)

Lemma foldl_snoc_fmap {A B} (f : A → B) (l : list A) (acc : list B) :
  foldl (fun acc a => acc ++ [f a]) acc l = acc ++ (f <$> l).
Proof.
  revert acc. induction l as [|a l IH]; intros acc; simpl.
  - by rewrite app_nil_r.
  - by rewrite IH, <- app_assoc.
Qed.

Lemma filter_fields_fmap records fields :
  filter_fields records fields = project fields <$> records.
Proof. unfold filter_fields. by rewrite foldl_snoc_fmap. Qed.

Lemma project_idempotent fields rec :
  project fields (project fields rec) = project fields rec.
Proof.
  unfold project at 1. apply DictFacts.comprehension_ext.
  intros key Hkey. unfold project. by apply DictFacts.get_comprehension.
Qed.

Lemma filter_fields_loop_run fields refs : ∀ records filtered st,
  Forall2 (fun r d => st !! r = Some d) refs records →
  Store.filter_fields_loop refs fields filtered st
  = Some (filtered ++ seq (length st) (length refs),
          st ++ (project fields <$> records)).
Proof.
  induction refs as [|r refs IH]; intros records filtered st Hrefs.
  - apply Forall2_nil_inv_l in Hrefs as ->. simpl. by rewrite !app_nil_r.
  - apply Forall2_cons_inv_l in Hrefs as (d & records' & Hd & Hrest & ->).
    cbn [Store.filter_fields_loop]. rewrite Hd. cbn [Store.alloc].
    rewrite (IH records').
    + rewrite length_app, Nat.add_1_r. cbn [length seq fmap list_fmap].
      by rewrite <- !app_assoc.
    + eapply Forall2_impl; [exact Hrest|].
      intros r' d' Hr'. by apply lookup_app_l_Some.
Qed.

(** C7.  [filter_fields] returns one record per input record, in order;
    each holds exactly the given field names, in the given order (a name
    given twice stands once, where it first occurs), bound to what the
    input record binds them to; a field the input record lacks is bound
    to [None].  Run on a store of dictionaries, it allocates one fresh
    dictionary per input record and leaves every dictionary that was in
    the store as it was. *)
Theorem filter_fields_projects (records : list record) (fields : list string) :
  length (filter_fields records fields) = length records
  ∧ (∀ i rec, records !! i = Some rec →
       ∃ row, filter_fields records fields !! i = Some row
         ∧ NoDup (Dict.keys row)
         ∧ Dict.keys row = first_occurrences fields
         ∧ (NoDup fields → Dict.keys row = fields)
         ∧ (∀ field, field ∈ fields →
              Dict.find row field = Some (Dict.get rec field))
         ∧ (∀ field, field ∈ fields → Dict.find rec field = None →
              Dict.find row field = Some VNone)
         ∧ (∀ field, field ∉ fields → Dict.find row field = None))
  ∧ (∀ (st : Store.store) (refs : list Store.ref),
       Forall2 (fun r d => st !! r = Some d) refs records →
       ∃ out st',
         Store.filter_fields refs fields st = Some (out, st')
         ∧ (∀ r d, st !! r = Some d → st' !! r = Some d)
         ∧ NoDup out
         ∧ Forall (fun o => st !! o = None) out
         ∧ Forall2 (fun o row => st' !! o = Some row) out
             (filter_fields records fields)).
Proof.
  rewrite filter_fields_fmap. split_and!.
  - apply length_fmap.
  - intros i rec Hi. exists (project fields rec). split_and!.
    + by rewrite list_lookup_fmap, Hi.
    + unfold project. rewrite DictFacts.keys_comprehension.
      apply DictFacts.NoDup_first_occurrences.
    + apply DictFacts.keys_comprehension.
    + intros Hnd. unfold project.
      by rewrite DictFacts.keys_comprehension, DictFacts.first_occurrences_NoDup.
    + intros field Hin. unfold project.
      by rewrite DictFacts.find_comprehension, decide_True.
    + intros field Hin Habsent. unfold project.
      rewrite DictFacts.find_comprehension, decide_True by done.
      unfold Dict.get, Dict.get_default. by rewrite Habsent.
    + intros field Hout. unfold project.
      by rewrite DictFacts.find_comprehension, decide_False.
  - intros st refs Hrefs.
    exists (seq (length st) (length refs)), (st ++ (project fields <$> records)).
    split_and!.
    + unfold Store.filter_fields.
      by rewrite (filter_fields_loop_run _ _ records).
    + intros r d Hr. by apply lookup_app_l_Some.
    + apply NoDup_seq.
    + apply Forall_forall. intros o [Ho _]%elem_of_seq.
      by apply lookup_ge_None.
    + apply Forall2_same_length_lookup. split.
      { rewrite length_seq, length_fmap. by eapply Forall2_length. }
      intros i o row Ho Hrow.
      apply lookup_seq in Ho as [-> Hi].
      rewrite lookup_app_r by lia.
      by replace (length st + i - length st)%nat with i by lia.
Qed.

(** C9.  Projecting twice on the same fields is projecting once. *)
Theorem filter_fields_idempotent (records : list record) (fields : list string) :
  filter_fields (filter_fields records fields) fields
  = filter_fields records fields.
Proof.
  rewrite !filter_fields_fmap, <- list_fmap_compose.
  apply list_fmap_ext. intros _ rec _. apply project_idempotent.
Qed.

(* ===================================================================== *)
(** ** [merge_records]: the left join *)
(* ===================================================================== *)

Module MergeFacts.
Import Dict DictFacts.

Lemma find_app d e key :
  find (d ++ e) key = match find d key with Some v => Some v | None => find e key end.
Proof.
  induction d as [|[k w] d IH]; simpl; [done|].
  by destruct (String.eqb k key).
Qed.

Lemma overlay_snoc d e k v : overlay d (e ++ [(k, v)]) = set (overlay d e) k v.
Proof. unfold overlay. by rewrite foldl_app. Qed.

(** The secondary value wins on every field it binds. *)
Lemma find_overlay d e key :
  NoDup (keys e) →
  find (overlay d e) key
  = match find e key with Some v => Some v | None => find d key end.
Proof.
  induction e as [|[k v] e IH] using rev_ind; [done|].
  unfold keys. rewrite fmap_app. intros [He [Hk _]]%NoDup_app.
  rewrite overlay_snoc, find_set, find_app, (IH He). simpl.
  rewrite eqb_decide. case_decide as Hkey.
  - subst key. rewrite bool_decide_eq_true_2 by done.
    destruct (find e k) eqn:Hfind; [|done].
    exfalso. apply find_Some_elem in Hfind.
    apply (Hk k); [|apply list_elem_of_singleton; done].
    apply list_elem_of_fmap. by exists (k, v0).
  - rewrite bool_decide_eq_false_2 by done. by destruct (find e key).
Qed.

Lemma Record_hashable r merge_key :
  is_Record r → is_Some (hash_key (get r merge_key)).
Proof.
  intros [_ Hscalar]. unfold get, get_default.
  destruct (find r merge_key) as [v|] eqn:Hfind; [|by eexists].
  apply find_Some_elem in Hfind.
  rewrite Forall_forall in Hscalar. specialize (Hscalar _ Hfind).
  destruct v as [| | |[]| | |]; by eauto.
Qed.

Lemma build_lookup_run merge_key secondary : ∀ lookup,
  Forall (fun item => is_Some (hash_key (get item merge_key))) secondary →
  ∃ lookup',
    build_lookup secondary merge_key lookup = Ok lookup'
    ∧ ∀ k, default [] (lookup' !! k)
           = default [] (lookup !! k) ++ filter (filed_under merge_key k) secondary.
Proof.
  induction secondary as [|item rest IH]; intros lookup Hhash.
  - exists lookup. split; [done|]. intros k. by rewrite filter_nil, app_nil_r.
  - apply Forall_cons in Hhash as [[k0 Hk0] Hrest].
    cbn [build_lookup]. destruct (is_none (get item merge_key)) eqn:Hnone.
    + destruct (IH lookup Hrest) as (lookup' & Hrun & Hfind).
      exists lookup'. split; [done|]. intros k.
      rewrite filter_cons_False; [done|]. intros [Hn _]. congruence.
    + rewrite Hk0.
      destruct (IH (<[k0 := default [] (lookup !! k0) ++ [item]]> lookup) Hrest)
        as (lookup' & Hrun & Hfind).
      exists lookup'. split; [done|]. intros k. rewrite Hfind.
      destruct (decide (k0 = k)) as [->|Hne].
      * rewrite lookup_insert_eq, filter_cons_True by done.
        cbn [from_option id]. by rewrite <- app_assoc.
      * rewrite lookup_insert_ne by done.
        rewrite filter_cons_False; [done|]. intros [_ Hk]. congruence.
Qed.

Lemma filed_under_joins merge_key base k :
  hash_key (get base merge_key) = Some k →
  ∀ extra, filed_under merge_key k extra ↔ joins merge_key base extra = true.
Proof.
  intros Hbase extra. unfold filed_under, joins, key_eqb. rewrite Hbase.
  destruct (is_none (get extra merge_key)); simpl; [intuition congruence|].
  destruct (hash_key (get extra merge_key)) as [k'|]; [|intuition congruence].
  rewrite bool_decide_eq_true. intuition congruence.
Qed.

Lemma merge_loop_run merge_key secondary lookup primary : ∀ merged,
  (∀ k, default [] (lookup !! k) = filter (filed_under merge_key k) secondary) →
  Forall (fun base => is_Some (hash_key (get base merge_key))) primary →
  merge_loop primary merge_key lookup merged
  = Ok (merged ++ concat (contribution secondary merge_key <$> primary)).
Proof.
  intros merged Hlookup Hhash. revert merged.
  induction Hhash as [|base rest [k Hk] _ IH]; intros merged.
  - simpl. by rewrite app_nil_r.
  - cbn [merge_loop]. rewrite Hk.
    assert (default [] (lookup !! k) = matches secondary merge_key base) as Hm.
    { rewrite Hlookup. unfold matches.
      apply list_filter_iff, filed_under_joins, Hk. }
    rewrite fmap_cons, concat_cons. unfold contribution at 1. rewrite <- Hm.
    destruct (lookup !! k) as [[|extra extras]|]; simpl;
      by rewrite IH, <- app_assoc.
Qed.

Lemma contribution_unmatched secondary merge_key base :
  matches secondary merge_key base = [] →
  contribution secondary merge_key base = [base].
Proof. unfold contribution. by intros ->. Qed.

Lemma contribution_matched secondary merge_key base :
  matches secondary merge_key base ≠ [] →
  contribution secondary merge_key base
  = overlay base <$> matches secondary merge_key base.
Proof. unfold contribution. by destruct (matches secondary merge_key base). Qed.

Lemma contribution_nonempty secondary merge_key base :
  (1 ≤ length (contribution secondary merge_key base))%nat.
Proof.
  unfold contribution.
  destruct (matches secondary merge_key base); simpl; lia.
Qed.

(** The whole function, for records whose join values can be hashed. *)
Lemma merge_records_run primary secondary merge_key :
  Forall (fun base => is_Some (hash_key (get base merge_key))) primary →
  Forall (fun item => is_Some (hash_key (get item merge_key))) secondary →
  merge_records primary secondary merge_key
  = Ok (concat (contribution secondary merge_key <$> primary)).
Proof.
  intros Hp Hs. unfold merge_records.
  destruct secondary as [|item rest] eqn:Hsec.
  - f_equal. clear. induction primary as [|base primary IH]; [done|].
    rewrite fmap_cons, concat_cons, <- IH. done.
  - rewrite <- Hsec in *. clear Hsec.
    destruct (build_lookup_run merge_key secondary ∅ Hs) as (lookup & -> & Hfind).
    simpl. rewrite (merge_loop_run merge_key secondary); [done| |done].
    intros k. rewrite Hfind. by rewrite lookup_empty.
Qed.

Lemma Records_hashable records merge_key :
  Forall is_Record records →
  Forall (fun r => is_Some (hash_key (get r merge_key))) records.
Proof.
  intros Hrecords. eapply Forall_impl; [exact Hrecords|].
  intros r. apply Record_hashable.
Qed.

End MergeFacts.

Lemma matches_elem secondary merge_key base extra :
  extra ∈ matches secondary merge_key base
  ↔ extra ∈ secondary ∧ joins merge_key base extra = true.
Proof. unfold matches. rewrite list_elem_of_filter. tauto. Qed.

Lemma filter_none {A} (P : A → Prop) `{∀ a, Decision (P a)} (l : list A) :
  (∀ a, ¬ P a) → filter P l = [].
Proof.
  intros HP. induction l as [|a l IH]; [done|].
  by rewrite filter_cons_False.
Qed.

Lemma elem_of_concat {A} (x : A) (blocks : list (list A)) :
  x ∈ concat blocks ↔ ∃ block, block ∈ blocks ∧ x ∈ block.
Proof.
  induction blocks as [|b blocks IH]; simpl.
  - rewrite elem_of_nil. split; [done|]. intros (? & []%elem_of_nil & _).
  - rewrite elem_of_app, IH. split.
    + intros [Hx|(block & Hb & Hx)].
      * exists b. split; [apply elem_of_cons; by left | done].
      * exists block. split; [apply elem_of_cons; by right | done].
    + intros (block & [->|Hb]%elem_of_cons & Hx); [by left|].
      right. by exists block.
Qed.

Lemma joins_not_none merge_key base extra :
  joins merge_key base extra = true → Dict.get extra merge_key ≠ VNone.
Proof.
  unfold joins. intros [Hnone _]%andb_true_iff Heq.
  rewrite Heq in Hnone. discriminate.
Qed.

Lemma none_key_unmatched secondary merge_key base :
  Dict.get base merge_key = VNone → matches secondary merge_key base = [].
Proof.
  intros Hbase. unfold matches. apply filter_none.
  intros extra. unfold joins, key_eqb. rewrite Hbase.
  destruct (Dict.get extra merge_key) as [| | |[]| | |]; simpl;
    rewrite ?bool_decide_eq_false_2; done.
Qed.

Lemma length_concat_blocks {A B} (f : A → list B) (l : list A) :
  (∀ a, 1 ≤ length (f a))%nat → (length l ≤ length (concat (f <$> l)))%nat.
Proof.
  intros Hf. induction l as [|a l IH]; [simpl; lia|].
  rewrite fmap_cons, concat_cons, length_app. cbn [length].
  specialize (Hf a). lia.
Qed.

(** Outside the data model, a join value that is a [list] or a [dict]
    cannot be hashed: [merge_records] raises. *)
Lemma merge_records_unhashable :
  merge_records [[("id", VList [VInt 1])]] [[("id", VInt 1)]] "id"
  = Raise TypeError.
Proof. reflexivity. Qed.

(** C1.  [merge_records] is a left join: with an empty [secondary] it
    returns [primary] as it is; otherwise the output is made of one
    non-empty block per primary record, in order — the record itself when
    nothing joins it, its combinations with secondary records when some do
    — so no primary record is dropped and the output is at least as long
    as [primary]. *)
Theorem merge_records_left_join :
  (∀ primary merge_key, merge_records primary [] merge_key = Ok primary)
  ∧ (∀ primary secondary merge_key,
       Forall is_Record primary → Forall is_Record secondary →
       ∃ merged blocks,
         merge_records primary secondary merge_key = Ok merged
         ∧ merged = concat blocks
         ∧ Forall2 (fun base block =>
                      block ≠ []
                      ∧ (matches secondary merge_key base = [] → block = [base])
                      ∧ Forall (fun row =>
                                  row = base
                                  ∨ ∃ extra, extra ∈ secondary
                                             ∧ row = Dict.overlay base extra) block)
             primary blocks
         ∧ (length primary ≤ length merged)%nat
         ∧ (∀ base, base ∈ primary →
              matches secondary merge_key base = [] → base ∈ merged)).
Proof.
  split; [done|].
  intros primary secondary merge_key Hp Hs.
  exists (concat (contribution secondary merge_key <$> primary)),
    (contribution secondary merge_key <$> primary).
  split_and!.
  - apply MergeFacts.merge_records_run; by apply MergeFacts.Records_hashable.
  - done.
  - apply Forall2_fmap_r, Forall_Forall2_diag, Forall_forall.
    intros base _. split_and!.
    + intros Hnil.
      pose proof (MergeFacts.contribution_nonempty secondary merge_key base) as Hlen.
      rewrite Hnil in Hlen. simpl in Hlen. lia.
    + apply MergeFacts.contribution_unmatched.
    + unfold contribution.
      destruct (matches secondary merge_key base) as [|extra extras] eqn:Hm.
      * apply Forall_singleton. by left.
      * rewrite <- Hm. apply Forall_fmap, Forall_forall.
        intros extra' [Hin _]%matches_elem. right. by exists extra'.
  - apply length_concat_blocks, MergeFacts.contribution_nonempty.
  - intros base Hin Hnil. apply elem_of_concat.
    exists [base]. split; [|by apply list_elem_of_singleton].
    apply list_elem_of_fmap. exists base.
    by rewrite MergeFacts.contribution_unmatched.
Qed.

(** C2.  The first loop files every secondary record whose join value
    is not [None] under that value, keeping all that share it, in order.
    A primary record that [n >= 1] secondary records join yields exactly
    [n] output records, one per joining record, each the primary record
    overlaid by the secondary one: on every field the secondary record
    binds — the join field among them — its value is the one kept. *)
Theorem merge_records_one_to_many
    (before : list record) (base : record) (after secondary : list record)
    (merge_key : string) (n : nat) :
  Forall is_Record (before ++ base :: after) →
  Forall is_Record secondary →
  length (matches secondary merge_key base) = n →
  (1 ≤ n)%nat →
  (∃ lookup,
     build_lookup secondary merge_key ∅ = Ok lookup
     ∧ ∀ k, default [] (lookup !! k) = filter (filed_under merge_key k) secondary)
  ∧ (∃ merged_before merged_after,
       merge_records before secondary merge_key = Ok merged_before
       ∧ merge_records after secondary merge_key = Ok merged_after
       ∧ merge_records (before ++ base :: after) secondary merge_key
         = Ok (merged_before
               ++ (Dict.overlay base <$> matches secondary merge_key base)
               ++ merged_after))
  ∧ length (Dict.overlay base <$> matches secondary merge_key base) = n
  ∧ (∀ extra, extra ∈ matches secondary merge_key base →
       extra ∈ secondary
       ∧ Dict.get extra merge_key ≠ VNone
       ∧ key_eqb (Dict.get base merge_key) (Dict.get extra merge_key) = true
       ∧ (∀ field,
            Dict.find (Dict.overlay base extra) field
            = match Dict.find extra field with
              | Some v => Some v
              | None => Dict.find base field
              end)
       ∧ Dict.get (Dict.overlay base extra) merge_key = Dict.get extra merge_key).
Proof.
  intros Hp Hs Hn Hpos.
  pose proof Hp as Hp'.
  apply Forall_app in Hp' as [Hbefore [Hbase Hafter]%Forall_cons].
  split_and!.
  - destruct (MergeFacts.build_lookup_run merge_key secondary ∅)
      as (lookup & Hrun & Hfind); [by apply MergeFacts.Records_hashable|].
    exists lookup. split; [done|]. intros k.
    by rewrite Hfind, lookup_empty.
  - exists (concat (contribution secondary merge_key <$> before)),
      (concat (contribution secondary merge_key <$> after)).
    rewrite !MergeFacts.merge_records_run by by apply MergeFacts.Records_hashable.
    split_and!; [done..|].
    rewrite fmap_app, fmap_cons, concat_app, concat_cons.
    rewrite (MergeFacts.contribution_matched _ _ base); [done|].
    intros Hnil. rewrite Hnil in Hn. simpl in Hn. lia.
  - by rewrite length_fmap.
  - intros extra [Hin Hjoin]%matches_elem.
    assert (NoDup (Dict.keys extra)) as Hnodup.
    { rewrite Forall_forall in Hs. by destruct (Hs _ Hin). }
    pose proof (MergeFacts.find_overlay base extra) as Hfind.
    split_and!.
    + done.
    + by eapply joins_not_none.
    + unfold joins in Hjoin. by apply andb_true_iff in Hjoin as [_ ?].
    + intros field. by apply Hfind.
    + apply joins_not_none in Hjoin.
      unfold Dict.get, Dict.get_default in *. rewrite Hfind by done.
      by destruct (Dict.find extra merge_key).
Qed.

(** C10.  [merge_records] keeps the order of [primary]: the output is the
    concatenation, primary record by primary record, of what each one
    contributes — itself when no secondary record joins it, which is the
    case of every record whose join value is absent or [None]; otherwise
    its combinations with the joining records, taken in the order in which
    these stand in [secondary]. *)
Theorem merge_records_preserves_order
    (primary secondary : list record) (merge_key : string) :
  Forall is_Record primary → Forall is_Record secondary →
  merge_records primary secondary merge_key
  = Ok (concat (contribution secondary merge_key <$> primary))
  ∧ (∀ base,
       matches secondary merge_key base
       = filter (fun extra => joins merge_key base extra = true) secondary
       ∧ sublist (matches secondary merge_key base) secondary
       ∧ (matches secondary merge_key base = [] →
            contribution secondary merge_key base = [base])
       ∧ (matches secondary merge_key base ≠ [] →
            contribution secondary merge_key base
            = Dict.overlay base <$> matches secondary merge_key base)
       ∧ (Dict.get base merge_key = VNone →
            contribution secondary merge_key base = [base])).
Proof.
  intros Hp Hs. split.
  - apply MergeFacts.merge_records_run; by apply MergeFacts.Records_hashable.
  - intros base. split_and!.
    + done.
    + apply sublist_filter.
    + apply MergeFacts.contribution_unmatched.
    + apply MergeFacts.contribution_matched.
    + intros Hnone. apply MergeFacts.contribution_unmatched.
      by apply none_key_unmatched.
Qed.

(* ===================================================================== *)
(** ** [parse_link_header] *)
(* ===================================================================== *)

Module LinkFacts.

Lemma split_once_None sep s :
  PyStr.mem sep s = false → PyStr.split_once sep s = None.
Proof.
  induction s as [|c s IH]; simpl; [done|].
  rewrite (Ascii.eqb_sym c sep).
  destruct (Ascii.eqb sep c); simpl; [done|].
  intros Hs. by rewrite IH.
Qed.

Lemma split_once_first sep before after :
  PyStr.mem sep before = false →
  PyStr.split_once sep (before +:+ String sep after) = Some (before, after).
Proof.
  induction before as [|c s IH]; simpl.
  - by rewrite Ascii.eqb_refl.
  - rewrite (Ascii.eqb_sym c sep).
    destruct (Ascii.eqb sep c); simpl; [done|].
    intros Hs. by rewrite IH.
Qed.

Lemma startswith_rel rel :
  PyStr.startswith "rel=" rel = true → rel = "rel=" +:+ PyStr.drop 4 rel.
Proof.
  destruct rel as [|c1 [|c2 [|c3 [|c4 rest]]]];
    cbn [PyStr.startswith]; rewrite ?andb_false_r; try done.
  rewrite andb_true_r, !andb_true_iff, !Ascii.eqb_eq.
  by intros (<- & <- & <- & <-).
Qed.

Lemma split_once_rel rel :
  PyStr.startswith "rel=" rel = true →
  PyStr.split_once equals_sign rel = Some ("rel", PyStr.drop 4 rel).
Proof. intros Hrel. by rewrite (startswith_rel rel Hrel) at 1. Qed.

(** The loop body inserts the pair of the segment, if it has one. *)
Lemma parse_link_part_pair links part :
  parse_link_part links part
  = match link_pair part with
    | Some (rel, url) => <[rel := url]> links
    | None => links
    end.
Proof.
  unfold parse_link_part, link_pair.
  destruct (PyStr.split_once semicolon part) as [[url_part rel_part]|]; [|done].
  cbv zeta.
  destruct (PyStr.startswith "rel=" (PyStr.strip rel_part)) eqn:Hrel; [|done].
  by rewrite (split_once_rel _ Hrel).
Qed.

Lemma last_url_snoc rel pairs r url :
  last_url rel (pairs ++ [(r, url)])
  = if decide (r = rel) then Some url else last_url rel pairs.
Proof.
  unfold last_url. rewrite filter_app, filter_cons, filter_nil. simpl.
  case_decide.
  - by rewrite last_snoc.
  - by rewrite app_nil_r.
Qed.

(** On a relation given more than once the last pair wins. *)
Lemma foldl_parse_link_part parts : ∀ links rel,
  foldl parse_link_part links parts !! rel
  = match last_url rel (omap link_pair parts) with
    | Some url => Some url
    | None => links !! rel
    end.
Proof.
  induction parts as [|part parts IH] using rev_ind; intros links rel; [done|].
  rewrite foldl_app, omap_app. simpl. rewrite parse_link_part_pair.
  destruct (link_pair part) as [[r url]|]; simpl.
  - rewrite last_url_snoc, lookup_insert. case_decide; [done|]. apply IH.
  - rewrite app_nil_r. apply IH.
Qed.

End LinkFacts.

(** C6, as stated, fails: this header is one segment, the segment has a
    semicolon, and yet [parse_link_header] makes no pair of it: the
    mapping it returns is empty. *)
Lemma parse_link_header_skips_segment :
  PyStr.split comma titled_link_header = [titled_link_header]
  ∧ is_Some (PyStr.split_once semicolon titled_link_header)
  ∧ parse_link_header (Some titled_link_header) = ∅.
Proof. split_and!; [reflexivity | by eexists | reflexivity]. Qed.

(** C6, amended.  [parse_link_header] splits the header on commas and
    binds, for each segment that has a pair, the relation of the pair to
    its URL, the last pair winning on a relation given twice.  A segment
    has a pair when it contains a semicolon and what follows the first
    semicolon starts, blanks aside, with [rel=]: the URL is what precedes
    the semicolon without blanks and angle brackets, the relation what
    follows [rel=] without quotes.  No other segment has a pair.  On the
    header of the example the mapping is next -> http://x/2,
    prev -> http://x/0. *)
Theorem parse_link_header_pairs :
  (∀ text rel,
     parse_link_header (Some text) !! rel
     = last_url rel (omap link_pair (PyStr.split comma text)))
  ∧ parse_link_header None = ∅
  ∧ (∀ url_part rel_part name,
       PyStr.mem semicolon url_part = false →
       PyStr.strip rel_part = "rel=" +:+ name →
       link_pair (url_part +:+ String semicolon rel_part)
       = Some (PyStr.strip_chars double_quote name,
               PyStr.strip_chars "<>" (PyStr.strip url_part)))
  ∧ (∀ url_part rel_part,
       PyStr.mem semicolon url_part = false →
       PyStr.startswith "rel=" (PyStr.strip rel_part) = false →
       link_pair (url_part +:+ String semicolon rel_part) = None)
  ∧ (∀ part, PyStr.mem semicolon part = false → link_pair part = None)
  ∧ parse_link_header (Some example_link_header)
    = {[ "next" := "http://x/2"; "prev" := "http://x/0" ]}.
Proof.
  split_and!.
  - intros text rel. unfold parse_link_header.
    destruct text as [|c text]; [done|].
    rewrite LinkFacts.foldl_parse_link_part, lookup_empty.
    by destruct (last_url _ _).
  - done.
  - intros url_part rel_part name Hurl Hrel. unfold link_pair.
    by rewrite (LinkFacts.split_once_first _ _ _ Hurl), Hrel.
  - intros url_part rel_part Hurl Hrel. unfold link_pair.
    by rewrite (LinkFacts.split_once_first _ _ _ Hurl), Hrel.
  - intros part Hpart. unfold link_pair.
    by rewrite (LinkFacts.split_once_None _ _ Hpart).
  - apply map_eq. intros rel. vm_compute parse_link_header.
    reflexivity.
Qed.

(* ===================================================================== *)
(** ** [fetch_paginated] *)
(* ===================================================================== *)

Lemma truthy_url_Some url : url ≠ EmptyString → truthy_url (Some url) = Some url.
Proof. destruct url; [congruence | reflexivity]. Qed.

Lemma fetch_page_ok records resp :
  page_ok resp →
  fetch_page records resp
  = Ok (records ++ page_records resp,
        parse_link_header (link_header resp) !! "next", None).
Proof.
  intros [Hstatus [payload Hjson]].
  unfold fetch_page, page_records, response_json.
  rewrite Hstatus, Hjson. reflexivity.
Qed.

(** The loop, started in any state whose URL is usable, against a server
    that has the pages [init ++ [final]] to give, then [rest]. *)
Lemma fetch_loop_run headers init : ∀ final rest records next_url url params log,
  truthy_url next_url = Some url →
  Forall page_ok (init ++ [final]) →
  Forall (fun resp => is_Some (next_link resp)) init →
  next_link final = None →
  interp_state serve (ITree.iter (fetch_body headers) (records, next_url, params))
    (init ++ final :: rest, log)
  ≈ Ret ((rest, log ++ request_of headers url params :: follow_ups headers init),
         Ok (records ++ concat (page_records <$> init ++ [final]))).
Proof.
  induction init as [|page init IH];
    intros final rest records next_url url params log Hurl Hok Hnext Hlast.
  - rewrite unfold_iter. cbn. rewrite Hurl.
    rewrite bind_bind, interp_state_bind, interp_state_trigger. cbn.
    rewrite !bind_ret_l. cbn.
    apply Forall_inv in Hok.
    rewrite (fetch_page_ok _ _ Hok), bind_ret_l.
    rewrite interp_state_tau, tau_eutt.
    rewrite unfold_iter. cbn. unfold next_link in Hlast. rewrite Hlast.
    rewrite bind_ret_l, interp_state_ret, app_nil_r. reflexivity.
  - rewrite unfold_iter. cbn. rewrite Hurl.
    rewrite bind_bind, interp_state_bind, interp_state_trigger. cbn.
    rewrite !bind_ret_l. cbn.
    inversion Hok as [|? ? Hpage Hok']; subst.
    inversion Hnext as [|? ? [u Hu] Hnext']; subst.
    rewrite (fetch_page_ok _ _ Hpage), bind_ret_l.
    rewrite interp_state_tau, tau_eutt.
    rewrite (IH final rest _ _ u None _ Hu Hok' Hnext' Hlast).
    rewrite Hu. cbn. rewrite <- !app_assoc. reflexivity.
Qed.

(** C4, as stated, fails: of these two responses the second is the first
    whose [Link] header has no "next" relation, and yet the loop stops at
    the first one: one call is made, the second response is never asked
    for and its records are not in the result. *)
Lemma fetch_paginated_stops_on_empty_next :
  parse_link_header (link_header page_with_empty_next) !! "next" = Some EmptyString
  ∧ parse_link_header (link_header (page_without_link 2)) !! "next" = None
  ∧ interp_state serve (fetch_paginated "http://x/1" [] [("per_page", VInt 1)])
      ([page_with_empty_next; page_without_link 2], [])
    ≈ Ret (([page_without_link 2],
            [request_of [] "http://x/1" (Some [("per_page", VInt 1)])]),
           Ok [[("id", VInt 1)]]).
Proof.
  split_and!; [reflexivity..|].
  assert (page_ok page_with_empty_next) as Hok
    by (split; [reflexivity | by eexists]).
  unfold fetch_paginated.
  rewrite (fetch_loop_run [] [] page_with_empty_next [page_without_link 2]
             [] (Some "http://x/1") "http://x/1" (Some [("per_page", VInt 1)]) []
             eq_refl (Forall_cons_2 _ _ _ Hok (Forall_nil_2 _)) (Forall_nil_2 _) eq_refl).
  reflexivity.
Qed.

(** C4, amended.  Started on a non-empty URL against a server that
    answers with the pages [init ++ [final]], each a success with a JSON
    body, where every page of [init] links to a non-empty "next" URL and
    [final] is the first page with no "next" relation or an empty one,
    [fetch_paginated] returns the records of the pages, page after page;
    it makes one call per page and no more: the first on the caller's URL
    with the caller's parameters, each later one on the URL the page
    before linked to, without parameters. *)
Theorem fetch_paginated_follows_next
    (url : string) (headers : list (string * string)) (params : record)
    (init : list response) (final : response) (rest : list response) :
  url ≠ EmptyString →
  Forall page_ok (init ++ [final]) →
  Forall (fun resp => is_Some (next_link resp)) init →
  next_link final = None →
  interp_state serve (fetch_paginated url headers params) (init ++ final :: rest, [])
  ≈ Ret ((rest, request_of headers url (Some params) :: follow_ups headers init),
         Ok (concat (page_records <$> init ++ [final])))
  ∧ length (request_of headers url (Some params) :: follow_ups headers init)
    = length (init ++ [final]).
Proof.
  intros Hurl Hok Hnext Hlast. split.
  - unfold fetch_paginated.
    by rewrite (fetch_loop_run headers init final rest [] (Some url) url
                  (Some params) [] (truthy_url_Some _ Hurl) Hok Hnext Hlast).
  - unfold follow_ups. rewrite length_app. simpl. rewrite length_fmap. lia.
Qed.

(** The scenario of the design document: two pages, two calls. *)
Lemma fetch_paginated_two_pages :
  interp_state serve (fetch_paginated "http://x/1" [] [("per_page", VInt 1)])
    ([page_one; page_without_link 2], [])
  ≈ Ret (([], [request_of [] "http://x/1" (Some [("per_page", VInt 1)]);
               request_of [] "http://x/2" None]),
         Ok [[("id", VInt 1)]; [("id", VInt 2)]]).
Proof.
  apply (fetch_paginated_follows_next "http://x/1" [] [("per_page", VInt 1)]
           [page_one] (page_without_link 2) []).
  - done.
  - repeat constructor; by eexists.
  - repeat constructor. by eexists.
  - reflexivity.
Defined.

(* ===================================================================== *)
(** ** Day arithmetic *)
(* ===================================================================== *)

Module DateFacts.

Lemma month_day_ok_leap :
  forallb (fun k => month_day_ok true (Z.of_nat k)) (seq 0 366) = true.
Proof. vm_compute. reflexivity. Qed.

Lemma month_day_ok_common :
  forallb (fun k => month_day_ok false (Z.of_nat k)) (seq 0 365) = true.
Proof. vm_compute. reflexivity. Qed.

Lemma month_day_spec leapyear n :
  0 <= n < 365 + Z.b2z leapyear → month_day_ok leapyear n = true.
Proof.
  intros Hn.
  assert (∀ len, forallb (fun k => month_day_ok leapyear (Z.of_nat k)) (seq 0 len) = true →
            (Z.to_nat n < len)%nat → month_day_ok leapyear n = true) as Hall.
  { intros len Hlen Hlt. rewrite forallb_forall in Hlen.
    rewrite <- (Z2Nat.id n) by lia. apply Hlen. apply in_seq. lia. }
  destruct leapyear.
  - apply (Hall _ month_day_ok_leap). simpl in Hn. lia.
  - apply (Hall _ month_day_ok_common). simpl in Hn. lia.
Qed.

Lemma div_mod_bounds a b hi :
  0 < b → 0 <= a < b * (hi + 1) →
  0 <= a / b <= hi ∧ a = b * (a / b) + a mod b ∧ 0 <= a mod b < b.
Proof.
  intros Hb Ha. split_and!.
  - apply Z.div_pos; lia.
  - apply Z.lt_succ_r, Z.div_lt_upper_bound; lia.
  - apply Z.div_mod. lia.
  - by apply Z.mod_pos_bound.
  - by apply Z.mod_pos_bound.
Qed.

Lemma toordinal_fromordinal n :
  1 <= n <= MAXORDINAL → toordinal (fromordinal n) = n.
Proof.
  unfold MAXORDINAL. intros Hn. unfold fromordinal.
  set (n0 := n - 1).
  set (n400 := n0 / 146097). set (r400 := n0 mod 146097).
  set (n100 := r400 / 36524). set (r100 := r400 mod 36524).
  set (n4 := r100 / 1461). set (r4 := r100 mod 1461).
  set (n1 := r4 / 365). set (r1 := r4 mod 365).
  destruct (div_mod_bounds n0 146097 24) as (H400 & E400 & B400); [lia | subst n0; lia |].
  fold n400 r400 in H400, E400, B400.
  destruct (div_mod_bounds r400 36524 4) as (H100 & E100 & B100); [lia..|].
  fold n100 r100 in H100, E100, B100.
  destruct (div_mod_bounds r100 1461 24) as (H4 & E4 & B4); [lia..|].
  fold n4 r4 in H4, E4, B4.
  destruct (div_mod_bounds r4 365 4) as (H1 & E1 & B1); [lia..|].
  fold n1 r1 in H1, E1, B1.
  clearbody n400 r400 n100 r100 n4 r4 n1 r1.
  assert (n = n0 + 1) as Hn0 by (subst n0; lia).
  clearbody n0. subst n.
  destruct ((n1 =? 4) || (n100 =? 4)) eqn:Hlast.
  - unfold toordinal, days_before_year, days_before_month, is_leap. cbn [year month day].
    change (DAYS_BEFORE_MONTH !!! Z.to_nat 12) with 334.
    change (2 <? 12) with true. cbn [andb].
    apply orb_true_iff in Hlast as [?%Z.eqb_eq | ?%Z.eqb_eq].
    + destruct (_ && _) eqn:Hleap; simpl Z.b2z.
      * clear Hleap. Z.div_mod_to_equations. lia.
      * apply andb_false_iff in Hleap. rewrite orb_false_iff, negb_false_iff in Hleap.
        rewrite !Z.eqb_neq, !Z.eqb_eq in Hleap. Z.div_mod_to_equations. lia.
    + destruct (_ && _) eqn:Hleap; simpl Z.b2z.
      * clear Hleap. Z.div_mod_to_equations. lia.
      * apply andb_false_iff in Hleap. rewrite orb_false_iff, negb_false_iff in Hleap.
        rewrite !Z.eqb_neq, !Z.eqb_eq in Hleap. Z.div_mod_to_equations. lia.
  - apply orb_false_iff in Hlast as [?%Z.eqb_neq ?%Z.eqb_neq].
    set (leapyear := (n1 =? 3) && (negb (n4 =? 24) || (n100 =? 3))).
    pose proof (month_day_spec leapyear r1) as Hmd.
    unfold month_day_ok in Hmd.
    destruct (month_day leapyear r1) as [m d].
    rewrite !andb_true_iff in Hmd.
    destruct Hmd as ((((Hm1 & Hm12) & Hd1) & Hd) & Hsum).
    { destruct leapyear; simpl; lia. }
    apply Z.eqb_eq in Hsum.
    unfold toordinal, days_before_year, days_before_month. cbn [year month day].
    assert (is_leap (n400 * 400 + 1 + (n100 * 100 + n4 * 4 + n1)) = leapyear) as ->.
    { unfold is_leap, leapyear.
      apply eq_true_iff_eq.
      rewrite !andb_true_iff, !orb_true_iff, !negb_true_iff, !Z.eqb_eq, !Z.eqb_neq.
      Z.div_mod_to_equations. lia. }
    Z.div_mod_to_equations. lia.
Qed.

Lemma month_cases m : 1 <= m <= 12 →
  m = 1 ∨ m = 2 ∨ m = 3 ∨ m = 4 ∨ m = 5 ∨ m = 6
  ∨ m = 7 ∨ m = 8 ∨ m = 9 ∨ m = 10 ∨ m = 11 ∨ m = 12.
Proof. lia. Qed.

Lemma days_before_next_year y :
  days_before_year (y + 1) = days_before_year y + 365 + Z.b2z (is_leap y).
Proof.
  unfold days_before_year, is_leap.
  destruct (_ && _) eqn:Hleap; simpl Z.b2z.
  - rewrite andb_true_iff, orb_true_iff, negb_true_iff, !Z.eqb_eq, Z.eqb_neq in Hleap.
    Z.div_mod_to_equations. lia.
  - rewrite andb_false_iff, orb_false_iff, negb_false_iff, !Z.eqb_neq, Z.eqb_eq in Hleap.
    Z.div_mod_to_equations. lia.
Qed.

Lemma days_before_year_mono y1 y2 :
  y1 <= y2 → days_before_year y1 <= days_before_year y2.
Proof. unfold days_before_year. intros. Z.div_mod_to_equations. lia. Qed.

(** The days of a year before the end of month [m]. *)
Lemma days_before_next_month y m :
  1 <= m <= 12 →
  days_before_month y m + days_in_month y m
  = if m =? 12 then 365 + Z.b2z (is_leap y) else days_before_month y (m + 1).
Proof.
  intros Hm. unfold days_before_month, days_in_month.
  destruct (is_leap y);
    destruct (month_cases m Hm) as [->|[->|[->|[->|[->|[->|[->|[->|[->|[->|[->| ->]]]]]]]]]]];
    reflexivity.
Qed.

Lemma days_before_month_mono y m1 m2 :
  1 <= m1 → m1 <= m2 → m2 <= 12 →
  days_before_month y m1 <= days_before_month y m2.
Proof.
  intros H1 H12 H2. unfold days_before_month.
  assert (1 <= m1 <= 12) as Hm1 by lia. assert (1 <= m2 <= 12) as Hm2 by lia.
  destruct (is_leap y);
    destruct (month_cases m1 Hm1) as [->|[->|[->|[->|[->|[->|[->|[->|[->|[->|[->| ->]]]]]]]]]]];
    destruct (month_cases m2 Hm2) as [->|[->|[->|[->|[->|[->|[->|[->|[->|[->|[->| ->]]]]]]]]]]];
    try lia; vm_compute; congruence.
Qed.

(** An earlier date has a smaller ordinal. *)
Lemma toordinal_lt a b :
  valid_date a → valid_date b → date_ltb a b = true → toordinal a < toordinal b.
Proof.
  intros (Hya & Hma & Hda) (Hyb & Hmb & Hdb). unfold date_ltb, toordinal.
  rewrite !orb_true_iff, !andb_true_iff, !orb_true_iff, !andb_true_iff,
    !Z.ltb_lt, !Z.eqb_eq.
  pose proof (days_before_next_month (year a) (month a) Hma) as Hnext.
  intros [Hy|[Hy [Hm|[Hm Hd]]]].
  - pose proof (days_before_next_year (year a)) as Hyear.
    pose proof (days_before_year_mono (year a + 1) (year b)) as Hmono.
    pose proof (days_before_month_mono (year a) (month a + 1) 12) as Hmonth.
    pose proof (days_before_month_mono (year b) 1 (month b)) as Hfirst.
    change (days_before_month (year b) 1) with 0 in Hfirst.
    assert (days_before_month (year a) 12 + 31 = 365 + Z.b2z (is_leap (year a))) as H12.
    { unfold days_before_month. by destruct (is_leap (year a)). }
    destruct (month a =? 12) eqn:H; [apply Z.eqb_eq in H|apply Z.eqb_neq in H]; lia.
  - rewrite Hy.
    pose proof (days_before_month_mono (year b) (month a + 1) (month b)) as Hmonth.
    destruct (month a =? 12) eqn:H; [apply Z.eqb_eq in H|apply Z.eqb_neq in H];
      rewrite Hy in *; lia.
  - rewrite Hy, Hm. lia.
Qed.

Lemma toordinal_valid d :
  valid_date d → 1 <= toordinal d <= MAXORDINAL.
Proof.
  intros (Hy & Hm & Hd). unfold toordinal.
  pose proof (days_before_next_month (year d) (month d) Hm) as Hnext.
  pose proof (days_before_month_mono (year d) (month d + 1) 12) as Hmonth.
  pose proof (days_before_month_mono (year d) 1 (month d)) as Hfirst.
  change (days_before_month (year d) 1) with 0 in Hfirst.
  assert (days_before_month (year d) 12 + 31 = 365 + Z.b2z (is_leap (year d))) as H12.
  { unfold days_before_month. by destruct (is_leap (year d)). }
  pose proof (days_before_next_year (year d)) as Hyear.
  pose proof (days_before_year_mono 1 (year d)) as Hlow.
  pose proof (days_before_year_mono (year d + 1) 10000) as Hhigh.
  change (days_before_year 1) with 0 in Hlow.
  change (days_before_year 10000) with 3652059 in Hhigh.
  unfold MAXORDINAL.
  destruct (month d =? 12) eqn:H; [apply Z.eqb_eq in H|apply Z.eqb_neq in H]; lia.
Qed.


Lemma days_in_month_table y m leapyear :
  is_leap y = leapyear → 1 <= m <= 12 →
  DAYS_IN_MONTH !!! Z.to_nat m + Z.b2z ((m =? 2) && leapyear) = days_in_month y m.
Proof.
  intros <- Hm. unfold days_in_month.
  destruct (is_leap y);
    destruct (month_cases m Hm) as [->|[->|[->|[->|[->|[->|[->|[->|[->|[->|[->| ->]]]]]]]]]]];
    reflexivity.
Qed.

Lemma fromordinal_valid n :
  1 <= n <= MAXORDINAL → valid_date (fromordinal n).
Proof.
  unfold MAXORDINAL. intros Hn. unfold fromordinal.
  set (n0 := n - 1).
  set (n400 := n0 / 146097). set (r400 := n0 mod 146097).
  set (n100 := r400 / 36524). set (r100 := r400 mod 36524).
  set (n4 := r100 / 1461). set (r4 := r100 mod 1461).
  set (n1 := r4 / 365). set (r1 := r4 mod 365).
  destruct (div_mod_bounds n0 146097 24) as (H400 & E400 & B400); [lia | subst n0; lia |].
  fold n400 r400 in H400, E400, B400.
  destruct (div_mod_bounds r400 36524 4) as (H100 & E100 & B100); [lia..|].
  fold n100 r100 in H100, E100, B100.
  destruct (div_mod_bounds r100 1461 24) as (H4 & E4 & B4); [lia..|].
  fold n4 r4 in H4, E4, B4.
  destruct (div_mod_bounds r4 365 4) as (H1 & E1 & B1); [lia..|].
  fold n1 r1 in H1, E1, B1.
  clearbody n400 r400 n100 r100 n4 r4 n1 r1.
  assert (n = n0 + 1) as Hn0 by (subst n0; lia).
  clearbody n0. subst n.
  destruct ((n1 =? 4) || (n100 =? 4)) eqn:Hlast.
  - unfold valid_date. cbn [year month day].
    assert (days_in_month (n400 * 400 + 1 + (n100 * 100 + n4 * 4 + n1) - 1) 12 = 31) as ->.
    { unfold days_in_month. by rewrite andb_false_l. }
    apply orb_true_iff in Hlast as [?%Z.eqb_eq | ?%Z.eqb_eq]; lia.
  - apply orb_false_iff in Hlast as [?%Z.eqb_neq ?%Z.eqb_neq].
    set (leapyear := (n1 =? 3) && (negb (n4 =? 24) || (n100 =? 3))).
    pose proof (month_day_spec leapyear r1) as Hmd.
    unfold month_day_ok in Hmd.
    destruct (month_day leapyear r1) as [m d].
    rewrite !andb_true_iff in Hmd.
    destruct Hmd as ((((Hm1 & Hm12) & Hd1) & Hd) & Hsum).
    { destruct leapyear; simpl; lia. }
    unfold valid_date. cbn [year month day].
    rewrite <- (days_in_month_table _ m leapyear); [lia | | lia].
    unfold is_leap, leapyear. apply eq_true_iff_eq.
    rewrite !andb_true_iff, !orb_true_iff, !negb_true_iff, !Z.eqb_eq, !Z.eqb_neq.
    Z.div_mod_to_equations. lia.
Qed.

Lemma date_trichotomy a b :
  date_ltb a b = true ∨ a = b ∨ date_ltb b a = true.
Proof.
  destruct a as [ya ma da], b as [yb mb db]. unfold date_ltb. cbn [year month day].
  rewrite !orb_true_iff, !andb_true_iff, !orb_true_iff, !andb_true_iff,
    !Z.ltb_lt, !Z.eqb_eq.
  destruct (Z.lt_trichotomy ya yb) as [?|[->|?]]; [lia| |lia].
  destruct (Z.lt_trichotomy ma mb) as [?|[->|?]]; [lia| |lia].
  destruct (Z.lt_trichotomy da db) as [?|[->|?]]; [lia| |lia].
  right. by left.
Qed.

(** A later ordinal is a later date. *)
Lemma fromordinal_lt n1 n2 :
  1 <= n1 → n1 < n2 → n2 <= MAXORDINAL →
  date_ltb (fromordinal n1) (fromordinal n2) = true.
Proof.
  intros H1 H12 H2.
  pose proof (toordinal_fromordinal n1) as E1.
  pose proof (toordinal_fromordinal n2) as E2.
  pose proof (fromordinal_valid n1) as V1.
  pose proof (fromordinal_valid n2) as V2.
  destruct (date_trichotomy (fromordinal n1) (fromordinal n2)) as [?|[Heq|Hgt]]; [done|..].
  - rewrite Heq in E1. lia.
  - apply toordinal_lt in Hgt; [lia | apply V2; lia | apply V1; lia].
Qed.

Lemma date_add_days_ok today days :
  valid_date today →
  1 <= toordinal today + days <= MAXORDINAL →
  date_add_days today days = Ok (fromordinal (toordinal today + days)).
Proof.
  intros Htoday Hrange. pose proof (toordinal_valid today Htoday) as Hord.
  unfold date_add_days, MAXORDINAL in *.
  rewrite (proj2 (Z.ltb_ge _ _)) by lia.
  rewrite (proj2 (Z.ltb_lt _ _)), (proj2 (Z.leb_le _ _)) by lia.
  done.
Qed.

End DateFacts.

(* ===================================================================== *)
(** ** [resolve_date_range] *)
(* ===================================================================== *)

Section ResolveFacts.

Variable int_of_text : string -> result Z.
Variable fromisoformat : value -> result date.

Lemma declared_offset_int offsets key days :
  declared_offset offsets key days →
  py_int int_of_text (Dict.get_default offsets key (VInt 0)) = Ok days.
Proof.
  unfold Dict.get_default. by intros [->|[-> ->]].
Qed.

(** C8.  When the configuration declares no manual start and end for
    the range, [resolve_date_range] returns today plus the start offset
    and today plus the end offset, each offset being the declared
    integer or 0; the two days are that many days from today, whatever
    the order of the offsets: when the end offset is the smaller, the
    range returned ends before it starts. *)
Theorem resolve_date_range_offsets
    (config : record) (range_name : string) (today : date)
    (date_ranges manual_ranges manual offsets : record)
    (start_offset end_offset : Z) :
  Dict.get_default config "date_ranges" (VDict []) = VDict date_ranges →
  Dict.get_default date_ranges "manual" (VDict []) = VDict manual_ranges →
  Dict.get_default manual_ranges range_name (VDict []) = VDict manual →
  truthy (Dict.get manual "start") && truthy (Dict.get manual "end") = false →
  Dict.get_default date_ranges range_name (VDict []) = VDict offsets →
  declared_offset offsets "start_offset_days" start_offset →
  declared_offset offsets "end_offset_days" end_offset →
  valid_date today →
  1 <= toordinal today + start_offset <= MAXORDINAL →
  1 <= toordinal today + end_offset <= MAXORDINAL →
  resolve_date_range int_of_text fromisoformat (VDict config) range_name today
  = Ok (fromordinal (toordinal today + start_offset),
        fromordinal (toordinal today + end_offset))
  ∧ toordinal (fromordinal (toordinal today + start_offset))
    = toordinal today + start_offset
  ∧ toordinal (fromordinal (toordinal today + end_offset))
    = toordinal today + end_offset
  ∧ (end_offset < start_offset →
       date_ltb (fromordinal (toordinal today + end_offset))
         (fromordinal (toordinal today + start_offset)) = true).
Proof.
  intros Hranges Hmanuals Hmanual Hno Hoffsets Hstart Hend Htoday Hs He.
  split_and!.
  - unfold resolve_date_range. cbn [py_get rbind].
    rewrite Hranges. cbn [py_get rbind].
    rewrite Hmanuals. cbn [py_get rbind].
    rewrite Hmanual. cbn [py_get rbind].
    fold (Dict.get manual "start") (Dict.get manual "end").
    rewrite Hno, Hoffsets. cbn [py_get rbind].
    rewrite (declared_offset_int _ _ _ Hstart), (declared_offset_int _ _ _ Hend).
    cbn [rbind].
    by rewrite !DateFacts.date_add_days_ok.
  - by apply DateFacts.toordinal_fromordinal.
  - by apply DateFacts.toordinal_fromordinal.
  - intros Hinv. apply DateFacts.fromordinal_lt; lia.
Qed.

End ResolveFacts.

(* ===================================================================== *)
(** ** The header of the CSV file *)
(* ===================================================================== *)

(** With records to write, the header is the whitelist, or the sorted
    field names of the first record when there is no whitelist. *)
Lemma csv_fieldnames_nonempty output_fields first rest :
  csv_fieldnames output_fields (first :: rest)
  = match output_fields with
    | [] => sorted (Dict.keys first)
    | _ => output_fields
    end.
Proof. reflexivity. Qed.

Lemma sorted_spec names :
  Sorted String.le (sorted names) ∧ sorted names ≡ₚ names.
Proof.
  unfold sorted. split.
  - apply Sorted_merge_sort. apply _.
  - apply merge_sort_Permutation.
Qed.

(** C3.  With no record to write, [main] hands [write_csv] an empty field
    list, whatever the whitelist: with the whitelist id, name the header
    is not id, name. *)
Theorem export_csv_header_without_records :
  (∀ output_fields,
     output_projection [] output_fields = []
     ∧ csv_fieldnames output_fields (output_projection [] output_fields) = []
     ∧ export_csv [] output_fields = ([], []))
  ∧ (export_csv [] ["id"; "name"]).1 ≠ ["id"; "name"].
Proof.
  split; [|done].
  intros output_fields. by destruct output_fields.
Qed.

(* ===================================================================== *)
(** ** The scenarios of the design document *)
(* ===================================================================== *)

Lemma scenario_records :
  Forall is_Record scenario_primary ∧ Forall is_Record scenario_secondary
  ∧ Forall is_Record scenario_pair.
Proof. split_and!; apply (bool_decide_unpack _); vm_compute; exact I. Qed.

(** Primary [{id:1,name:a},{id:2,name:b}] merged with [{id:1,status:ok}]
    on "id": record 1 gains the status, record 2 passes through. *)
Lemma merge_records_scenario :
  merge_records scenario_primary scenario_secondary "id"
  = Ok [[("id", VInt 1); ("name", VStr "a"); ("status", VStr "ok")];
        [("id", VInt 2); ("name", VStr "b")]].
Proof. vm_compute. reflexivity. Qed.

Lemma merge_records_left_join_scenario :
  ∃ merged,
    merge_records scenario_primary scenario_secondary "id" = Ok merged
    ∧ (length scenario_primary ≤ length merged)%nat.
Proof.
  destruct scenario_records as (Hp & Hs & _).
  destruct (proj2 merge_records_left_join scenario_primary scenario_secondary
              "id" Hp Hs) as (merged & blocks & Hrun & _ & _ & Hlen & _).
  exists merged. split; assumption.
Defined.

Lemma merge_records_one_to_many_scenario :
  length (Dict.overlay scenario_base <$> matches scenario_pair "id" scenario_base)
  = 2%nat.
Proof.
  destruct scenario_records as (Hp & _ & Hs).
  apply (merge_records_one_to_many [] scenario_base (tail scenario_primary)
           scenario_pair "id" 2 Hp Hs eq_refl).
  lia.
Defined.

Lemma merge_records_preserves_order_scenario :
  merge_records scenario_primary scenario_pair "id"
  = Ok (concat (contribution scenario_pair "id" <$> scenario_primary)).
Proof.
  destruct scenario_records as (Hp & _ & Hs).
  apply (merge_records_preserves_order scenario_primary scenario_pair "id" Hp Hs).
Defined.

Lemma extract_records_items_scenario :
  VDict <$> extract_records
              (VDict [("items", VList [VDict [("id", VInt 1)]; VInt 5])])
  = filter (fun v => is_dict v = true) [VDict [("id", VInt 1)]; VInt 5].
Proof.
  apply (proj1 (proj2 extract_records_total) _ ["data"] "items" ["results"]).
  - reflexivity.
  - repeat constructor.
  - reflexivity.
Defined.

Lemma link_pair_next_scenario :
  link_pair ("<http://x/2>"
             +:+ String semicolon (" rel=" +:+ double_quote +:+ "next" +:+ double_quote))
  = Some ("next", "http://x/2").
Proof.
  apply (proj1 (proj2 (proj2 parse_link_header_pairs)) "<http://x/2>"
           (" rel=" +:+ double_quote +:+ "next" +:+ double_quote)
           (double_quote +:+ "next" +:+ double_quote)); reflexivity.
Defined.

Lemma filter_fields_projects_scenario :
  ∃ row, filter_fields scenario_primary ["name"; "zip"] !! 0%nat = Some row
    ∧ NoDup (Dict.keys row)
    ∧ Dict.keys row = first_occurrences ["name"; "zip"]
    ∧ (NoDup ["name"; "zip"] → Dict.keys row = ["name"; "zip"])
    ∧ (∀ field, field ∈ ["name"; "zip"] →
         Dict.find row field = Some (Dict.get scenario_base field))
    ∧ (∀ field, field ∈ ["name"; "zip"] → Dict.find scenario_base field = None →
         Dict.find row field = Some VNone)
    ∧ (∀ field, field ∉ ["name"; "zip"] → Dict.find row field = None).
Proof.
  apply (proj1 (proj2 (filter_fields_projects scenario_primary ["name"; "zip"]))
           0%nat scenario_base).
  reflexivity.
Defined.

(** Offsets -7 and 0 on 2024-06-10 give 2024-06-03 to 2024-06-10. *)
Lemma resolve_date_range_scenario :
  resolve_date_range (fun _ => Raise ValueError) (fun _ => Raise ValueError)
    (VDict scenario_config) "history" scenario_today
  = Ok ({| year := 2024; month := 6; day := 3 |},
        scenario_today).
Proof.
  apply (resolve_date_range_offsets (fun _ => Raise ValueError)
           (fun _ => Raise ValueError) scenario_config "history"
           scenario_today
           [("history", VDict [("start_offset_days", VInt (-7));
                               ("end_offset_days", VInt 0)])]
           [] [] [("start_offset_days", VInt (-7)); ("end_offset_days", VInt 0)]
           (-7) 0).
  - reflexivity.
  - reflexivity.
  - reflexivity.
  - reflexivity.
  - reflexivity.
  - by left.
  - by left.
  - vm_compute. intuition discriminate.
  - vm_compute. intuition discriminate.
  - vm_compute. intuition discriminate.
Defined.

(* ===================================================================== *)
(* ===================================================================== *)
(** * Further properties *)
(* ===================================================================== *)
(* ===================================================================== *)

(* ===================================================================== *)
(** ** More on [merge_records] *)
(* ===================================================================== *)

Module MergeMore.
Import Dict DictFacts MergeFacts.

Lemma build_lookup_raises merge_key secondary : ∀ lookup,
  Exists (fun item => ¬ hashable_join merge_key item) secondary →
  build_lookup secondary merge_key lookup = Raise TypeError.
Proof.
  induction secondary as [|item rest IH]; intros lookup Hex.
  - by apply Exists_nil in Hex.
  - cbn [build_lookup].
    destruct (is_none (get item merge_key)) eqn:Hnone.
    + apply IH. apply Exists_cons in Hex as [Hitem|Hrest]; [|done].
      exfalso. apply Hitem. unfold hashable_join.
      destruct (get item merge_key); done.
    + destruct (hash_key (get item merge_key)) as [k|] eqn:Hk; [|done].
      apply IH. apply Exists_cons in Hex as [Hitem|Hrest]; [|done].
      exfalso. apply Hitem. unfold hashable_join. rewrite Hk. by eexists.
Qed.

Lemma merge_loop_raises merge_key primary : ∀ lookup merged,
  Exists (fun base => ¬ hashable_join merge_key base) primary →
  merge_loop primary merge_key lookup merged = Raise TypeError.
Proof.
  induction primary as [|base rest IH]; intros lookup merged Hex.
  - by apply Exists_nil in Hex.
  - cbn [merge_loop].
    destruct (hash_key (get base merge_key)) as [k|] eqn:Hk; [|done].
    apply Exists_cons in Hex as [Hbase|Hrest].
    + exfalso. apply Hbase. unfold hashable_join. rewrite Hk. by eexists.
    + destruct (lookup !! k) as [[|extra extras]|]; by apply IH.
Qed.

Lemma set_scalar d key v :
  Forall (fun kv => is_scalar kv.2 = true) d → is_scalar v = true →
  Forall (fun kv => is_scalar kv.2 = true) (set d key v).
Proof.
  intros Hd Hv. induction Hd as [|[k w] d Hw Hd IH]; simpl.
  - by apply Forall_singleton.
  - destruct (String.eqb k key); by constructor.
Qed.

Lemma overlay_Record d e : is_Record d → is_Record e → is_Record (overlay d e).
Proof.
  intros Hd [_ He]. unfold overlay.
  revert d Hd. induction He as [|[k v] e Hv He IH]; intros d Hd; [done|].
  simpl. apply IH. destruct Hd as [Hnd Hsc]. split.
  - by apply NoDup_keys_set.
  - by apply set_scalar.
Qed.

Lemma contribution_Records secondary merge_key base :
  is_Record base → Forall is_Record secondary →
  Forall is_Record (contribution secondary merge_key base).
Proof.
  intros Hbase Hs. unfold contribution.
  destruct (matches secondary merge_key base) as [|extra extras] eqn:Hm.
  - by apply Forall_singleton.
  - rewrite <- Hm. apply Forall_fmap, Forall_forall.
    intros extra' Hin. apply overlay_Record; [done|].
    unfold matches in Hin. apply list_elem_of_filter in Hin as [_ Hin].
    rewrite Forall_forall in Hs. by apply Hs.
Qed.

Lemma concat_Forall {A} (P : A → Prop) (blocks : list (list A)) :
  Forall (Forall P) blocks → Forall P (concat blocks).
Proof.
  induction 1 as [|b blocks Hb _ IH]; simpl; [done|].
  by apply Forall_app.
Qed.

Lemma merged_Records primary secondary merge_key :
  Forall is_Record primary → Forall is_Record secondary →
  Forall is_Record (concat (contribution secondary merge_key <$> primary)).
Proof.
  intros Hp Hs. apply concat_Forall, Forall_fmap.
  eapply Forall_impl; [exact Hp|].
  intros base Hbase. by apply contribution_Records.
Qed.

Lemma length_concat_le {A B} (f : A → list B) (l : list A) (n : nat) :
  (∀ a, length (f a) ≤ n)%nat → (length (concat (f <$> l)) ≤ length l * n)%nat.
Proof.
  intros Hf. induction l as [|a l IH]; [simpl; lia|].
  rewrite fmap_cons, concat_cons, length_app. cbn [length].
  specialize (Hf a). lia.
Qed.

Lemma concat_singletons {A} (f : A → list A) (l : list A) :
  (∀ a, a ∈ l → f a = [a]) → concat (f <$> l) = l.
Proof.
  induction l as [|a l IH]; intros Hf; [done|].
  rewrite fmap_cons, concat_cons, IH, Hf; [done| |].
  - apply elem_of_cons. by left.
  - intros a' Ha'. apply Hf. apply elem_of_cons. by right.
Qed.

Lemma length_contribution_le secondary merge_key base :
  (length (contribution secondary merge_key base) ≤ Nat.max 1 (length secondary))%nat.
Proof.
  unfold contribution.
  destruct (matches secondary merge_key base) as [|extra extras] eqn:Hm.
  - simpl. lia.
  - rewrite <- Hm, length_fmap. unfold matches.
    pose proof (length_filter (fun extra => joins merge_key base extra = true) secondary).
    lia.
Qed.

Lemma filed_under_join_key merge_key k item :
  filed_under merge_key k item ↔ join_key merge_key item = Some k.
Proof.
  unfold filed_under, join_key.
  destruct (is_none (get item merge_key)); intuition congruence.
Qed.

Lemma filter_unique {A B} `{EqDecision B} (f : A → option B) (l : list A) (y : B) :
  NoDup (omap f l) → (length (filter (fun x => f x = Some y) l) ≤ 1)%nat.
Proof.
  induction l as [|x l IH]; [simpl; lia|].
  cbn [omap list_omap]. destruct (f x) as [z|] eqn:Hx.
  - intros [Hz Hnd]%NoDup_cons.
    destruct (decide (z = y)) as [->|Hne].
    + rewrite filter_cons_True by done. cbn [length].
      assert (filter (fun x => f x = Some y) l = []) as ->; [|simpl; lia].
      destruct (filter (fun x => f x = Some y) l) as [|x' l'] eqn:Hf; [done|].
      exfalso. apply Hz.
      assert (x' ∈ filter (fun x => f x = Some y) l) as Hin
        by (rewrite Hf; apply elem_of_cons; by left).
      apply list_elem_of_filter in Hin as [Hx' Hin].
      apply list_elem_of_omap. by exists x'.
    + rewrite filter_cons_False by congruence. by apply IH.
  - intros Hnd. rewrite filter_cons_False by congruence. by apply IH.
Qed.

Lemma matches_unique secondary merge_key base :
  hashable_join merge_key base →
  NoDup (join_keys merge_key secondary) →
  (length (matches secondary merge_key base) ≤ 1)%nat.
Proof.
  intros [k Hk] Hnd. unfold matches.
  rewrite <- (list_filter_iff _ _ secondary (filed_under_joins merge_key base k Hk)).
  rewrite (list_filter_iff _ (fun item => join_key merge_key item = Some k));
    [|intros item; apply filed_under_join_key].
  by apply filter_unique.
Qed.

Lemma get_project_absent fields rec key :
  key ∉ fields → get (project fields rec) key = VNone.
Proof.
  intros Hkey. unfold get, get_default, project.
  by rewrite find_comprehension, decide_False.
Qed.

Lemma none_join_unmatched secondary merge_key base :
  Forall (fun item => get item merge_key = VNone) secondary →
  matches secondary merge_key base = [].
Proof.
  intros Hs. unfold matches.
  induction Hs as [|item rest Hitem _ IH]; [done|].
  rewrite filter_cons_False; [done|].
  unfold joins. rewrite Hitem. simpl. done.
Qed.

Lemma none_join_hashable merge_key records :
  Forall (fun item => get item merge_key = VNone) records →
  Forall (fun item => is_Some (hash_key (get item merge_key))) records.
Proof.
  intros H. eapply Forall_impl; [exact H|].
  intros item ->. by eexists.
Qed.

Lemma keys_app d e : keys (d ++ e) = keys d ++ keys e.
Proof. unfold keys. by rewrite fmap_app. Qed.

Lemma keys_overlay d e :
  NoDup (keys e) →
  keys (overlay d e) = keys d ++ filter (fun k => k ∉ keys d) (keys e).
Proof.
  induction e as [|[k v] e IH] using rev_ind.
  - intros _. by rewrite app_nil_r.
  - rewrite keys_app. intros [He [Hk _]]%NoDup_app.
    rewrite overlay_snoc, keys_set, (IH He), filter_app.
    change (keys [(k, v)]) with [k].
    assert (k ∉ keys e) as Hke.
    { intros Hin. apply (Hk k Hin). by apply list_elem_of_singleton. }
    destruct (decide (k ∈ keys d)) as [Hkd|Hkd].
    + rewrite decide_True by (apply elem_of_app; by left).
      rewrite filter_cons_False by (intros H; by apply H).
      by rewrite filter_nil, app_nil_r.
    + rewrite decide_False.
      * rewrite filter_cons_True by done. by rewrite filter_nil, app_assoc.
      * rewrite elem_of_app, list_elem_of_filter. intuition.
Qed.

End MergeMore.

(** X1.  [merge_records] raises exactly when [secondary] is not empty
    and a join value, of a secondary or of a primary record, is a [list]
    or a [dict]; it raises [TypeError] and nothing else, and returns the
    contributions of the primary records otherwise. *)
Theorem merge_records_raises
    (primary secondary : list record) (merge_key : string) :
  (merge_records primary secondary merge_key = Raise TypeError
   ↔ secondary ≠ []
     ∧ (Exists (fun item => ¬ hashable_join merge_key item) secondary
        ∨ Exists (fun base => ¬ hashable_join merge_key base) primary))
  ∧ (∀ e, merge_records primary secondary merge_key = Raise e → e = TypeError)
  ∧ (secondary = []
     ∨ (Forall (hashable_join merge_key) secondary
        ∧ Forall (hashable_join merge_key) primary) →
     merge_records primary secondary merge_key
     = Ok (concat (contribution secondary merge_key <$> primary))).
Proof.
  assert (secondary = []
     ∨ (Forall (hashable_join merge_key) secondary
        ∧ Forall (hashable_join merge_key) primary) →
     merge_records primary secondary merge_key
     = Ok (concat (contribution secondary merge_key <$> primary))) as Hok.
  { intros [->|[Hs Hp]].
    - simpl. f_equal. symmetry. apply MergeMore.concat_singletons.
      intros base _. by apply MergeFacts.contribution_unmatched.
    - by apply MergeFacts.merge_records_run. }
  assert (secondary ≠ []
     ∧ (Exists (fun item => ¬ hashable_join merge_key item) secondary
        ∨ Exists (fun base => ¬ hashable_join merge_key base) primary) →
     merge_records primary secondary merge_key = Raise TypeError) as Hraise.
  { intros [Hne Hex]. unfold merge_records.
    destruct secondary as [|item rest] eqn:Hsec; [done|]. rewrite <- Hsec in *.
    destruct (decide (Forall (hashable_join merge_key) secondary)) as [Hs|Hs].
    - destruct (MergeFacts.build_lookup_run merge_key secondary ∅ Hs)
        as (lookup & -> & _).
      simpl. destruct Hex as [Hex|Hex].
      + exfalso. apply Exists_exists in Hex as (item' & Hin & Hbad).
        rewrite Forall_forall in Hs. by apply Hbad, Hs.
      + by apply MergeMore.merge_loop_raises.
    - apply not_Forall_Exists in Hs; [|apply _].
      by rewrite MergeMore.build_lookup_raises. }
  assert (secondary = []
     ∨ (Forall (hashable_join merge_key) secondary
        ∧ Forall (hashable_join merge_key) primary)
     ∨ (secondary ≠ []
        ∧ (Exists (fun item => ¬ hashable_join merge_key item) secondary
           ∨ Exists (fun base => ¬ hashable_join merge_key base) primary)))
    as Hcases.
  { destruct secondary as [|item rest] eqn:Hsec; [by left|]. rewrite <- Hsec in *.
    right.
    destruct (decide (Forall (hashable_join merge_key) secondary)) as [Hs|Hs];
      destruct (decide (Forall (hashable_join merge_key) primary)) as [Hp|Hp].
    - by left.
    - right. split; [by subst|]. right. apply not_Forall_Exists in Hp; [done|apply _].
    - right. split; [by subst|]. left. apply not_Forall_Exists in Hs; [done|apply _].
    - right. split; [by subst|]. left. apply not_Forall_Exists in Hs; [done|apply _]. }
  split_and!.
  - split; [|done].
    intros Hr. destruct Hcases as [H|[H|H]]; [| |done].
    + rewrite Hok in Hr by (by left). done.
    + rewrite Hok in Hr by (by right). done.
  - intros e Hr. destruct Hcases as [H|[H|H]].
    + rewrite Hok in Hr by (by left). done.
    + rewrite Hok in Hr by (by right). done.
    + rewrite (Hraise H) in Hr. congruence.
  - done.
Qed.

(** A join value that is a list, on the primary side. *)
Lemma merge_records_raises_scenario :
  merge_records [[("id", VList [VInt 1])]] [[("id", VInt 1)]] "id"
  = Raise TypeError.
Proof.
  apply (proj1 (merge_records_raises [[("id", VList [VInt 1])]] [[("id", VInt 1)]] "id")).
  split; [done|]. right. apply Exists_cons_hd.
  vm_compute. by intros [? ?].
Defined.

(** X2.  On records, [merge_records] returns records: every combined
    dictionary has distinct keys and scalar values. *)
Theorem merge_records_keeps_records
    (primary secondary : list record) (merge_key : string) :
  Forall is_Record primary → Forall is_Record secondary →
  ∃ merged, merge_records primary secondary merge_key = Ok merged
            ∧ Forall is_Record merged.
Proof.
  intros Hp Hs. eexists. split.
  - apply MergeFacts.merge_records_run; by apply MergeFacts.Records_hashable.
  - by apply MergeMore.merged_Records.
Qed.

Lemma merge_records_keeps_records_scenario :
  ∃ merged, merge_records scenario_primary scenario_secondary "id" = Ok merged
            ∧ Forall is_Record merged.
Proof.
  apply (merge_records_keeps_records scenario_primary scenario_secondary "id");
    apply scenario_records.
Defined.

(** X3.  When every join value can be hashed, the output of
    [merge_records] has at most [len(primary) * max(1, len(secondary))]
    records: a primary record is combined with each secondary record at
    most once. *)
Theorem merge_records_length_bound
    (primary secondary : list record) (merge_key : string) :
  Forall (hashable_join merge_key) primary →
  Forall (hashable_join merge_key) secondary →
  ∃ merged, merge_records primary secondary merge_key = Ok merged
            ∧ (length merged ≤ length primary * Nat.max 1 (length secondary))%nat.
Proof.
  intros Hp Hs. eexists. split.
  - by apply MergeFacts.merge_records_run.
  - apply MergeMore.length_concat_le. intros base.
    apply MergeMore.length_contribution_le.
Qed.

Lemma merge_records_length_bound_scenario :
  ∃ merged, merge_records scenario_primary scenario_pair "id" = Ok merged
            ∧ (length merged ≤ 2 * 2)%nat.
Proof.
  apply (merge_records_length_bound scenario_primary scenario_pair "id");
    apply MergeFacts.Records_hashable, scenario_records.
Defined.

(** X4.  The keys of [{**base, **extra}] are the keys of [base], in
    their order, followed by the keys of [extra] that [base] lacks, in
    theirs; a key of both keeps its place in [base] and takes the value
    of [extra]. *)
Theorem combined_keys (base extra : record) :
  NoDup (Dict.keys extra) →
  Dict.keys (Dict.overlay base extra)
  = Dict.keys base ++ filter (fun key => key ∉ Dict.keys base) (Dict.keys extra)
  ∧ (∀ key value, Dict.find extra key = Some value →
       Dict.find (Dict.overlay base extra) key = Some value).
Proof.
  intros Hextra. split.
  - by apply MergeMore.keys_overlay.
  - intros key value Hfind. by rewrite MergeFacts.find_overlay, Hfind.
Qed.

Lemma combined_keys_scenario :
  Dict.keys (Dict.overlay [("id", VInt 1); ("name", VStr "a")]
               [("status", VStr "ok"); ("id", VInt 1)])
  = ["id"; "name"; "status"].
Proof.
  apply (combined_keys [("id", VInt 1); ("name", VStr "a")]
           [("status", VStr "ok"); ("id", VInt 1)]).
  apply (bool_decide_unpack _). vm_compute. exact I.
Defined.

(** X5.  When no two secondary records share a join value, nothing is
    duplicated: the output has one record per primary record, in order,
    each the primary record itself or its combination with one secondary
    record. *)
Theorem merge_records_unique_keys
    (primary secondary : list record) (merge_key : string) :
  Forall (hashable_join merge_key) primary →
  Forall (hashable_join merge_key) secondary →
  NoDup (join_keys merge_key secondary) →
  ∃ merged, merge_records primary secondary merge_key = Ok merged
            ∧ Forall2 (fun base row =>
                         row = base
                         ∨ ∃ extra, extra ∈ secondary
                                    ∧ joins merge_key base extra = true
                                    ∧ row = Dict.overlay base extra)
                primary merged.
Proof.
  intros Hp Hs Hnd. eexists. split.
  - by apply MergeFacts.merge_records_run.
  - clear Hs. induction Hp as [|base primary Hbase _ IH]; [constructor|].
    rewrite fmap_cons, concat_cons.
    pose proof (MergeMore.matches_unique secondary merge_key base Hbase Hnd) as Hle.
    unfold contribution at 1.
    destruct (matches secondary merge_key base) as [|extra [|extra' extras]] eqn:Hm;
      simpl in Hle; [| |lia].
    + constructor; [by left|done].
    + simpl. constructor; [|done]. right. exists extra.
      assert (extra ∈ matches secondary merge_key base) as Hin
        by (rewrite Hm; apply elem_of_cons; by left).
      unfold matches in Hin. apply list_elem_of_filter in Hin as [Hj Hin].
      done.
Qed.

Lemma merge_records_unique_keys_scenario :
  ∃ merged, merge_records scenario_primary scenario_secondary "id" = Ok merged
            ∧ Forall2 (fun base row =>
                         row = base
                         ∨ ∃ extra, extra ∈ scenario_secondary
                                    ∧ joins "id" base extra = true
                                    ∧ row = Dict.overlay base extra)
                scenario_primary merged.
Proof.
  apply (merge_records_unique_keys scenario_primary scenario_secondary "id").
  - apply MergeFacts.Records_hashable, scenario_records.
  - apply MergeFacts.Records_hashable, scenario_records.
  - apply (bool_decide_unpack _). vm_compute. exact I.
Defined.

(** X6.  A projection that leaves out the merge key disables the join,
    on either side: every join value is then [None], which matches
    nothing, and the primary records come back as they are. *)
Theorem merge_records_without_key
    (primary secondary : list record) (fields : list string) (merge_key : string) :
  merge_key ∉ fields →
  (Forall (hashable_join merge_key) primary →
   merge_records primary (filter_fields secondary fields) merge_key = Ok primary)
  ∧ (Forall (hashable_join merge_key) secondary →
     merge_records (filter_fields primary fields) secondary merge_key
     = Ok (filter_fields primary fields)).
Proof.
  intros Hkey. split.
  - intros Hp.
    assert (Forall (fun item => Dict.get item merge_key = VNone)
              (filter_fields secondary fields)) as Hnone.
    { rewrite filter_fields_fmap. apply Forall_fmap, Forall_forall.
      intros item _. by apply MergeMore.get_project_absent. }
    rewrite MergeFacts.merge_records_run;
      [|done|by apply MergeMore.none_join_hashable].
    f_equal. apply MergeMore.concat_singletons. intros base _.
    unfold contribution. by rewrite MergeMore.none_join_unmatched.
  - intros Hs.
    assert (Forall (fun item => Dict.get item merge_key = VNone)
              (filter_fields primary fields)) as Hnone.
    { rewrite filter_fields_fmap. apply Forall_fmap, Forall_forall.
      intros item _. by apply MergeMore.get_project_absent. }
    destruct secondary as [|item rest] eqn:Hsec; [done|]. rewrite <- Hsec in *.
    rewrite MergeFacts.merge_records_run;
      [|by apply MergeMore.none_join_hashable|done].
    f_equal. apply MergeMore.concat_singletons. intros base Hbase.
    rewrite Forall_forall in Hnone.
    apply MergeFacts.contribution_unmatched. by apply none_key_unmatched, Hnone.
Qed.

Lemma merge_records_without_key_scenario :
  merge_records scenario_primary (filter_fields scenario_secondary ["status"]) "id"
  = Ok scenario_primary.
Proof.
  apply (merge_records_without_key scenario_primary scenario_secondary ["status"] "id").
  - apply (bool_decide_unpack _). vm_compute. exact I.
  - apply MergeFacts.Records_hashable, scenario_records.
Defined.

(* ===================================================================== *)
(** ** The merge of the sources in [main] *)
(* ===================================================================== *)

Lemma merge_sources_loop_run fetched primary_source_name merge_key :
  Forall (fun source => Forall is_Record source.2) fetched →
  ∀ merged_records, Forall is_Record merged_records →
  ∃ merged,
    merge_sources_loop fetched primary_source_name merge_key merged_records = Ok merged
    ∧ (length merged_records ≤ length merged)%nat
    ∧ Forall is_Record merged.
Proof.
  induction 1 as [|[source_name records] fetched Hrecords _ IH];
    intros merged_records Hmerged; cbn [merge_sources_loop].
  - by exists merged_records.
  - destruct (String.eqb source_name primary_source_name); [by apply IH|].
    rewrite MergeFacts.merge_records_run by (by apply MergeFacts.Records_hashable).
    cbn [rbind].
    destruct (IH (concat (contribution records merge_key <$> merged_records)))
      as (merged & Hrun & Hlen & Hrec).
    { by apply MergeMore.merged_Records. }
    exists merged. split_and!; [done| |done].
    etrans; [|exact Hlen].
    apply length_concat_blocks. intros base. apply MergeFacts.contribution_nonempty.
Qed.

Lemma fetched_get_Records fetched name :
  Forall (fun source => Forall is_Record source.2) fetched →
  Forall is_Record (fetched_get fetched name).
Proof.
  induction 1 as [|[source_name records] fetched Hrecords _ IH]; simpl; [done|].
  by destruct (String.eqb source_name name).
Qed.

Lemma fetched_get_absent fetched name :
  name ∉ fetched.*1 → fetched_get fetched name = [].
Proof.
  induction fetched as [|[source_name records] fetched IH]; [done|].
  rewrite fmap_cons, not_elem_of_cons. intros [Hne Hrest]. simpl.
  destruct (String.eqb_spec source_name name) as [->|_]; [done|]. by apply IH.
Qed.

Lemma merge_records_nil secondary merge_key :
  Forall (hashable_join merge_key) secondary →
  merge_records [] secondary merge_key = Ok [].
Proof.
  intros Hs. by rewrite MergeFacts.merge_records_run.
Qed.

(** X7.  The merge of the sources of a dataset never loses a record of
    the primary source: on records, the loop of [main] ends with at
    least as many records as the primary source has, all of them
    records. *)
Theorem merge_sources_keeps_primary
    (fetched : list (string * list record)) (primary_source_name merge_key : string) :
  Forall (fun source => Forall is_Record source.2) fetched →
  ∃ merged,
    merge_sources fetched primary_source_name merge_key = Ok merged
    ∧ (length (fetched_get fetched primary_source_name) ≤ length merged)%nat
    ∧ Forall is_Record merged.
Proof.
  intros Hfetched. unfold merge_sources.
  apply merge_sources_loop_run; [done|]. by apply fetched_get_Records.
Qed.

Lemma merge_sources_keeps_primary_scenario :
  ∃ merged,
    merge_sources [("bookings", scenario_primary); ("payments", scenario_pair)]
      "bookings" "id" = Ok merged
    ∧ (length (fetched_get [("bookings", scenario_primary); ("payments", scenario_pair)]
                 "bookings") ≤ length merged)%nat
    ∧ Forall is_Record merged.
Proof.
  apply (merge_sources_keeps_primary
           [("bookings", scenario_primary); ("payments", scenario_pair)] "bookings" "id").
  apply Forall_cons_2; [apply scenario_records|].
  apply Forall_cons_2; [apply scenario_records|]. apply Forall_nil_2.
Defined.

(** X8.  When [primary_source] names no source of the dataset, the merge
    starts from no record and ends with none, whatever the sources
    fetched: the dataset is exported empty. *)
Theorem merge_sources_unknown_primary
    (fetched : list (string * list record)) (primary_source_name merge_key : string) :
  primary_source_name ∉ fetched.*1 →
  Forall (fun source => Forall (hashable_join merge_key) source.2) fetched →
  merge_sources fetched primary_source_name merge_key = Ok [].
Proof.
  intros Habsent Hfetched. unfold merge_sources.
  rewrite (fetched_get_absent _ _ Habsent). clear Habsent.
  induction Hfetched as [|[source_name records] fetched Hrecords _ IH];
    cbn [merge_sources_loop]; [done|].
  destruct (String.eqb source_name primary_source_name); [done|].
  simpl in Hrecords. by rewrite (merge_records_nil _ _ Hrecords).
Qed.

Lemma merge_sources_unknown_primary_scenario :
  merge_sources [("bookings", scenario_primary); ("payments", scenario_pair)]
    "booking" "id" = Ok [].
Proof.
  apply (merge_sources_unknown_primary
           [("bookings", scenario_primary); ("payments", scenario_pair)] "booking" "id").
  - apply (bool_decide_unpack _). vm_compute. exact I.
  - apply Forall_cons_2; [apply MergeFacts.Records_hashable, scenario_records|].
    apply Forall_cons_2; [apply MergeFacts.Records_hashable, scenario_records|].
    apply Forall_nil_2.
Defined.

(* ===================================================================== *)
(** ** [fetch_paginated]: failures *)
(* ===================================================================== *)

Lemma fetch_page_error records resp e :
  page_error resp = Some e → fetch_page records resp = Raise e.
Proof.
  unfold page_error, fetch_page, raise_for_status, response_json.
  destruct ((400 <=? status_code resp) && (status_code resp <? 600)); cbn.
  - by intros [= <-].
  - destruct (json resp); cbn; [done|]. by intros [= <-].
Qed.

(** The loop against a server that has the pages [init] to give, each
    linking to the next, and then fails. *)
Lemma fetch_loop_fails headers init : ∀ answers records next_url url params log e,
  truthy_url next_url = Some url →
  Forall page_ok init →
  Forall (fun resp => is_Some (next_link resp)) init →
  answer_error answers = Some e →
  interp_state serve (ITree.iter (fetch_body headers) (records, next_url, params))
    (init ++ answers, log)
  ≈ Ret ((tail answers, log ++ request_of headers url params :: follow_ups headers init),
         Raise e).
Proof.
  induction init as [|page init IH];
    intros answers records next_url url params log e Hurl Hok Hnext Herr.
  - rewrite unfold_iter. cbn. rewrite Hurl.
    rewrite bind_bind, interp_state_bind, interp_state_trigger. cbn.
    destruct answers as [|resp rest]; cbn in *.
    + rewrite !bind_ret_l. cbn. rewrite bind_ret_l, interp_state_ret.
      by inversion Herr.
    + rewrite !bind_ret_l. cbn.
      rewrite (fetch_page_error _ _ _ Herr), bind_ret_l, interp_state_ret.
      reflexivity.
  - rewrite unfold_iter. cbn. rewrite Hurl.
    rewrite bind_bind, interp_state_bind, interp_state_trigger. cbn.
    rewrite !bind_ret_l. cbn.
    inversion Hok as [|? ? Hpage Hok']; subst.
    inversion Hnext as [|? ? [u Hu] Hnext']; subst.
    rewrite (fetch_page_ok _ _ Hpage), bind_ret_l.
    rewrite interp_state_tau, tau_eutt.
    rewrite (IH answers _ _ u None _ e Hu Hok' Hnext' Herr).
    rewrite Hu. cbn. rewrite <- !app_assoc. reflexivity.
Qed.

(** X9.  [fetch_paginated] fails as a whole: when, after pages that each
    link to a next one, a response has an error status or a body that is
    not JSON, the function raises [HTTPError] or [JSONDecodeError] (the
    status is tested first), the records of the pages before are not
    returned, and no call is made after the failing one. *)
Theorem fetch_paginated_fails_fast
    (url : string) (headers : list (string * string)) (params : record)
    (init : list response) (bad : response) (rest : list response) (e : exn) :
  url ≠ EmptyString →
  Forall page_ok init →
  Forall (fun resp => is_Some (next_link resp)) init →
  page_error bad = Some e →
  interp_state serve (fetch_paginated url headers params) (init ++ bad :: rest, [])
  ≈ Ret ((rest, request_of headers url (Some params) :: follow_ups headers init),
         Raise e)
  ∧ (e = HTTPError ∨ e = JSONDecodeError)
  ∧ (400 <= status_code bad < 600 → e = HTTPError).
Proof.
  intros Hurl Hok Hnext Herr. split_and!.
  - unfold fetch_paginated.
    by rewrite (fetch_loop_fails headers init (bad :: rest) [] (Some url) url
                  (Some params) [] e (truthy_url_Some _ Hurl) Hok Hnext Herr).
  - unfold page_error in Herr.
    destruct ((400 <=? status_code bad) && (status_code bad <? 600));
      [left; congruence|].
    destruct (json bad); [done|right; congruence].
  - intros Hstatus. unfold page_error in Herr.
    destruct (400 <=? status_code bad) eqn:H1; [|lia].
    destruct (status_code bad <? 600) eqn:H2; [|lia].
    simpl in Herr. congruence.
Qed.

(** A first page, then a 503: one record fetched, none returned. *)
Lemma fetch_paginated_fails_fast_scenario :
  interp_state serve (fetch_paginated "http://x/1" [] [("per_page", VInt 1)])
    ([page_one; page_unavailable; page_without_link 3], [])
  ≈ Ret (([page_without_link 3],
          [request_of [] "http://x/1" (Some [("per_page", VInt 1)]);
           request_of [] "http://x/2" None]),
         Raise HTTPError).
Proof.
  apply (fetch_paginated_fails_fast "http://x/1" [] [("per_page", VInt 1)]
           [page_one] page_unavailable [page_without_link 3] HTTPError).
  - done.
  - repeat constructor; by eexists.
  - repeat constructor. by eexists.
  - reflexivity.
Defined.

(** X10.  [fetch_paginated] has no page limit: as long as the pages link
    to a next one it asks for it.  Against a server that has [n] such
    pages to give and then drops the connection, it makes [n + 1] calls
    and raises [ConnectionError]. *)
Theorem fetch_paginated_unbounded
    (url : string) (headers : list (string * string)) (params : record)
    (pages : list response) :
  url ≠ EmptyString →
  Forall page_ok pages →
  Forall (fun resp => is_Some (next_link resp)) pages →
  ∃ calls,
    interp_state serve (fetch_paginated url headers params) (pages, [])
    ≈ Ret (([], calls), Raise ConnectionError)
    ∧ length calls = S (length pages).
Proof.
  intros Hurl Hok Hnext.
  exists (request_of headers url (Some params) :: follow_ups headers pages). split.
  - unfold fetch_paginated.
    pose proof (fetch_loop_fails headers pages [] [] (Some url) url
                  (Some params) [] ConnectionError (truthy_url_Some _ Hurl)
                  Hok Hnext eq_refl) as Hrun.
    rewrite app_nil_r in Hrun. exact Hrun.
  - unfold follow_ups. simpl. by rewrite length_fmap.
Qed.

Lemma fetch_paginated_unbounded_scenario :
  ∃ calls,
    interp_state serve (fetch_paginated "http://x/1" [] [("per_page", VInt 1)])
      ([page_one; page_one], [])
    ≈ Ret (([], calls), Raise ConnectionError)
    ∧ length calls = 3%nat.
Proof.
  apply (fetch_paginated_unbounded "http://x/1" [] [("per_page", VInt 1)]
           [page_one; page_one]).
  - done.
  - repeat constructor; by eexists.
  - repeat constructor; by eexists.
Defined.

(* ===================================================================== *)
(** ** [extract_records] and [filter_fields]: round trips *)
(* ===================================================================== *)

Lemma dict_items_records records : dict_items (VDict <$> records) = records.
Proof.
  induction records as [|r records IH]; [done|].
  rewrite fmap_cons. cbn [dict_items]. by rewrite IH.
Qed.

(** X11.  A list of dictionaries is taken as it is, bare or under one of
    the three container keys; so the records [extract_records] returns,
    put back in a list, are extracted unchanged. *)
Theorem extract_records_round_trip :
  (∀ records, extract_records (VList (VDict <$> records)) = records)
  ∧ (∀ key records, key ∈ container_keys →
       extract_records (VDict [(key, VList (VDict <$> records))]) = records)
  ∧ (∀ payload,
       extract_records (VList (VDict <$> extract_records payload))
       = extract_records payload).
Proof.
  split_and!.
  - intros records. apply dict_items_records.
  - intros key records Hkey. unfold container_keys in Hkey.
    repeat (apply elem_of_cons in Hkey as [->|Hkey]);
      [apply dict_items_records..|].
    by apply elem_of_nil in Hkey.
  - intros payload. apply dict_items_records.
Qed.

Lemma extract_records_round_trip_scenario :
  extract_records (VDict [("results", VList (VDict <$> scenario_primary))])
  = scenario_primary.
Proof.
  apply (proj1 (proj2 extract_records_round_trip)).
  apply (bool_decide_unpack _). vm_compute. exact I.
Defined.

(** X12.  Two projections in a row, as [main] does with the [fields] of
    a source and the [output_fields] of the dataset: when every output
    field is among the source's fields, the result is the projection of
    the original records on the output fields; an output field that the
    first projection dropped is [None] in every row, whatever the
    original record held. *)
Theorem filter_fields_compose
    (records : list record) (fields output_fields : list string) :
  (output_fields ⊆ fields →
   filter_fields (filter_fields records fields) output_fields
   = filter_fields records output_fields)
  ∧ (∀ row field,
       row ∈ filter_fields (filter_fields records fields) output_fields →
       field ∈ output_fields → field ∉ fields →
       Dict.find row field = Some VNone).
Proof.
  rewrite !filter_fields_fmap, <- list_fmap_compose. split.
  - intros Hsub. apply list_fmap_ext. intros _ rec _. simpl.
    unfold project at 1. apply DictFacts.comprehension_ext.
    intros key Hkey. unfold project. apply DictFacts.get_comprehension.
    by apply Hsub.
  - intros row field Hrow Hout Hnot.
    apply list_elem_of_fmap in Hrow as (rec & -> & _). simpl.
    unfold project at 1. rewrite DictFacts.find_comprehension, decide_True by done.
    f_equal. by apply MergeMore.get_project_absent.
Qed.

Lemma filter_fields_compose_scenario :
  filter_fields (filter_fields scenario_primary ["id"; "name"]) ["name"]
  = filter_fields scenario_primary ["name"].
Proof.
  apply (filter_fields_compose scenario_primary ["id"; "name"] ["name"]).
  apply (bool_decide_unpack _). vm_compute. exact I.
Defined.

(* ===================================================================== *)
(** ** [resolve_date_range]: fixed dates, defaults and failures *)
(* ===================================================================== *)

Lemma fromordinal_toordinal d : valid_date d → fromordinal (toordinal d) = d.
Proof.
  intros Hd. pose proof (DateFacts.toordinal_valid d Hd) as Hord.
  pose proof (DateFacts.fromordinal_valid _ Hord) as Hvalid.
  pose proof (DateFacts.toordinal_fromordinal _ Hord) as Heq.
  destruct (DateFacts.date_trichotomy (fromordinal (toordinal d)) d) as [Hlt|[Heqd|Hlt]].
  - pose proof (DateFacts.toordinal_lt _ _ Hvalid Hd Hlt). lia.
  - done.
  - pose proof (DateFacts.toordinal_lt _ _ Hd Hvalid Hlt). lia.
Qed.

Lemma date_add_days_overflow today days :
  valid_date today →
  ¬ (1 <= toordinal today + days <= MAXORDINAL) →
  date_add_days today days = Raise OverflowError.
Proof.
  intros Htoday Hrange. unfold date_add_days, MAXORDINAL in *.
  destruct (999999999 <? Z.abs days); [done|].
  destruct (0 <? toordinal today + days) eqn:H1; [|done].
  destruct (toordinal today + days <=? 3652059) eqn:H2; [|done].
  lia.
Qed.

Section ResolveMore.

Variable int_of_text : string -> result Z.
Variable fromisoformat : value -> result date.

(** X13.  Fixed dates win: when the manual entry of the range has a
    truthy [start] and a truthy [end], the result is what
    [fromisoformat] makes of them, start first; the offsets of the range
    are not read and today's date plays no part. *)
Theorem resolve_date_range_manual
    (config : record) (range_name : string) (today : date)
    (date_ranges manual_ranges manual : record) :
  Dict.get_default config "date_ranges" (VDict []) = VDict date_ranges →
  Dict.get_default date_ranges "manual" (VDict []) = VDict manual_ranges →
  Dict.get_default manual_ranges range_name (VDict []) = VDict manual →
  truthy (Dict.get manual "start") && truthy (Dict.get manual "end") = true →
  resolve_date_range int_of_text fromisoformat (VDict config) range_name today
  = (let* start := fromisoformat (Dict.get manual "start") in
     let* end_ := fromisoformat (Dict.get manual "end") in
     Ok (start, end_))
  ∧ (∀ other_day,
       resolve_date_range int_of_text fromisoformat (VDict config) range_name other_day
       = resolve_date_range int_of_text fromisoformat (VDict config) range_name today).
Proof.
  intros Hranges Hmanuals Hmanual Hboth.
  assert (∀ day,
    resolve_date_range int_of_text fromisoformat (VDict config) range_name day
    = (let* start := fromisoformat (Dict.get manual "start") in
       let* end_ := fromisoformat (Dict.get manual "end") in
       Ok (start, end_))) as Hrun.
  { intros day. unfold resolve_date_range. cbn [py_get rbind].
    rewrite Hranges. cbn [py_get rbind].
    rewrite Hmanuals. cbn [py_get rbind].
    rewrite Hmanual. cbn [py_get rbind].
    fold (Dict.get manual "start") (Dict.get manual "end").
    by rewrite Hboth. }
  split; [apply Hrun|]. intros other_day. by rewrite !Hrun.
Qed.

(** X14.  With no [date_ranges] section, or with one that has neither
    manual dates nor an entry for the range, both ends of the range are
    today. *)
Theorem resolve_date_range_default
    (config : record) (range_name : string) (today : date) :
  valid_date today →
  Dict.find config "date_ranges" = None
  ∨ (∃ date_ranges,
       Dict.find config "date_ranges" = Some (VDict date_ranges)
       ∧ Dict.find date_ranges "manual" = None
       ∧ Dict.find date_ranges range_name = None) →
  resolve_date_range int_of_text fromisoformat (VDict config) range_name today
  = Ok (today, today).
Proof.
  intros Htoday Hconfig.
  assert (date_add_days today 0 = Ok today) as Hadd.
  { rewrite DateFacts.date_add_days_ok.
    - by rewrite Z.add_0_r, fromordinal_toordinal.
    - done.
    - rewrite Z.add_0_r. by apply DateFacts.toordinal_valid. }
  unfold resolve_date_range. cbn [py_get rbind]. unfold Dict.get_default.
  destruct Hconfig as [->|(date_ranges & -> & Hmanual & Hrange)].
  - cbn. by rewrite Hadd.
  - cbn [py_get rbind]. unfold Dict.get_default. rewrite Hmanual.
    cbn. rewrite Hrange. cbn. by rewrite Hadd.
Qed.

(** X15.  A section that is present but is not a mapping is not
    defaulted: [date_ranges], its [manual] entry or the manual entry of
    the range bound to [None] (a key with nothing under it in the YAML
    file), or to any other value that is not a mapping, makes
    [resolve_date_range] raise [AttributeError]; so does a
    configuration that is not a mapping. *)
Theorem resolve_date_range_not_a_mapping (range_name : string) (today : date) :
  (∀ config, is_dict config = false →
     resolve_date_range int_of_text fromisoformat config range_name today
     = Raise AttributeError)
  ∧ (∀ config section,
       Dict.find config "date_ranges" = Some section → is_dict section = false →
       resolve_date_range int_of_text fromisoformat (VDict config) range_name today
       = Raise AttributeError)
  ∧ (∀ config date_ranges section,
       Dict.find config "date_ranges" = Some (VDict date_ranges) →
       Dict.find date_ranges "manual" = Some section → is_dict section = false →
       resolve_date_range int_of_text fromisoformat (VDict config) range_name today
       = Raise AttributeError)
  ∧ (∀ config date_ranges manual_ranges section,
       Dict.find config "date_ranges" = Some (VDict date_ranges) →
       Dict.find date_ranges "manual" = Some (VDict manual_ranges) →
       Dict.find manual_ranges range_name = Some section → is_dict section = false →
       resolve_date_range int_of_text fromisoformat (VDict config) range_name today
       = Raise AttributeError).
Proof.
  split_and!.
  - by intros [].
  - intros config section Hfind Hsection.
    unfold resolve_date_range. cbn [py_get rbind]. unfold Dict.get_default.
    rewrite Hfind. by destruct section.
  - intros config date_ranges section Hfind Hmanual Hsection.
    unfold resolve_date_range. cbn [py_get rbind]. unfold Dict.get_default.
    rewrite Hfind. cbn [py_get rbind]. unfold Dict.get_default.
    rewrite Hmanual. by destruct section.
  - intros config date_ranges manual_ranges section Hfind Hmanual Hrange Hsection.
    unfold resolve_date_range. cbn [py_get rbind]. unfold Dict.get_default.
    rewrite Hfind. cbn [py_get rbind]. unfold Dict.get_default.
    rewrite Hmanual. cbn [py_get rbind]. unfold Dict.get_default.
    rewrite Hrange. by destruct section.
Qed.

(** X16.  An offset that leads out of the calendar is an error, not a
    clamped date: when today plus the start offset, or today plus the end
    offset, is before 0001-01-01 or after 9999-12-31,
    [resolve_date_range] raises [OverflowError]. *)
Theorem resolve_date_range_overflow
    (config : record) (range_name : string) (today : date)
    (date_ranges manual_ranges manual offsets : record)
    (start_offset end_offset : Z) :
  Dict.get_default config "date_ranges" (VDict []) = VDict date_ranges →
  Dict.get_default date_ranges "manual" (VDict []) = VDict manual_ranges →
  Dict.get_default manual_ranges range_name (VDict []) = VDict manual →
  truthy (Dict.get manual "start") && truthy (Dict.get manual "end") = false →
  Dict.get_default date_ranges range_name (VDict []) = VDict offsets →
  declared_offset offsets "start_offset_days" start_offset →
  declared_offset offsets "end_offset_days" end_offset →
  valid_date today →
  ¬ (1 <= toordinal today + start_offset <= MAXORDINAL)
  ∨ ¬ (1 <= toordinal today + end_offset <= MAXORDINAL) →
  resolve_date_range int_of_text fromisoformat (VDict config) range_name today
  = Raise OverflowError.
Proof.
  intros Hranges Hmanuals Hmanual Hno Hoffsets Hstart Hend Htoday Hout.
  unfold resolve_date_range. cbn [py_get rbind].
  rewrite Hranges. cbn [py_get rbind].
  rewrite Hmanuals. cbn [py_get rbind].
  rewrite Hmanual. cbn [py_get rbind].
  fold (Dict.get manual "start") (Dict.get manual "end").
  rewrite Hno, Hoffsets. cbn [py_get rbind].
  rewrite (declared_offset_int int_of_text _ _ _ Hstart),
    (declared_offset_int int_of_text _ _ _ Hend).
  cbn [rbind].
  destruct (decide (1 <= toordinal today + start_offset <= MAXORDINAL)) as [Hin|Hnot].
  - rewrite (DateFacts.date_add_days_ok _ _ Htoday Hin). cbn [rbind].
    destruct Hout as [Hout|Hout]; [done|].
    by rewrite (date_add_days_overflow _ _ Htoday Hout).
  - by rewrite (date_add_days_overflow _ _ Htoday Hnot).
Qed.

End ResolveMore.

(** Fixed dates for "history", whatever the day. *)
Lemma resolve_date_range_manual_scenario :
  resolve_date_range (fun _ => Raise ValueError) scenario_fromisoformat
    (VDict manual_config) "history" scenario_today
  = Ok ({| year := 2024; month := 1; day := 1 |},
        {| year := 2024; month := 1; day := 31 |}).
Proof.
  exact (proj1 (resolve_date_range_manual (fun _ => Raise ValueError)
                  scenario_fromisoformat manual_config "history" scenario_today
                  [("manual",
                    VDict [("history", VDict [("start", VStr "2024-01-01");
                                              ("end", VStr "2024-01-31")])]);
                   ("history", VDict [("start_offset_days", VInt (-7))])]
                  [("history", VDict [("start", VStr "2024-01-01");
                                      ("end", VStr "2024-01-31")])]
                  [("start", VStr "2024-01-01"); ("end", VStr "2024-01-31")]
                  eq_refl eq_refl eq_refl eq_refl)).
Defined.

Lemma resolve_date_range_default_scenario :
  resolve_date_range (fun _ => Raise ValueError) (fun _ => Raise ValueError)
    (VDict []) "onhand" scenario_today
  = Ok (scenario_today, scenario_today).
Proof.
  apply (resolve_date_range_default (fun _ => Raise ValueError)
           (fun _ => Raise ValueError) [] "onhand" scenario_today).
  - vm_compute. intuition discriminate.
  - by left.
Defined.

Lemma resolve_date_range_not_a_mapping_scenario :
  resolve_date_range (fun _ => Raise ValueError) (fun _ => Raise ValueError)
    (VDict null_config) "history" scenario_today
  = Raise AttributeError.
Proof.
  apply (proj1 (proj2 (resolve_date_range_not_a_mapping (fun _ => Raise ValueError)
                         (fun _ => Raise ValueError) "history" scenario_today))
           null_config VNone);
    reflexivity.
Defined.

Lemma resolve_date_range_overflow_scenario :
  resolve_date_range (fun _ => Raise ValueError) (fun _ => Raise ValueError)
    (VDict far_config) "history" scenario_today
  = Raise OverflowError.
Proof.
  apply (resolve_date_range_overflow (fun _ => Raise ValueError)
           (fun _ => Raise ValueError) far_config "history" scenario_today
           [("history", VDict [("start_offset_days", VInt 10000000)])]
           [] [] [("start_offset_days", VInt 10000000)] 10000000 0).
  - reflexivity.
  - reflexivity.
  - reflexivity.
  - reflexivity.
  - reflexivity.
  - by left.
  - by right.
  - vm_compute. intuition discriminate.
  - left. vm_compute. intuition discriminate.
Defined.

(* ===================================================================== *)
(** ** [build_headers] *)
(* ===================================================================== *)

Lemma build_headers_token token token_header :
  token ≠ EmptyString →
  build_headers token token_header
  = <[token_header :=
        if String.eqb (PyStr.lower token_header) "authorization"
           && negb (PyStr.startswith "bearer " (PyStr.lower token))
        then "Bearer " +:+ token else token]>
      ({[ "Accept" := "application/json" ]} : gmap string string).
Proof.
  intros Htoken. unfold build_headers. destruct token as [|c token]; [done|].
  by destruct (String.eqb (PyStr.lower token_header) "authorization"
               && negb (PyStr.startswith "bearer " (PyStr.lower (String c token)))).
Qed.

Lemma lower_bearer token :
  PyStr.startswith "bearer " (PyStr.lower ("Bearer " +:+ token)) = true.
Proof. reflexivity. Qed.

(** X17.  With a token, the header named [token_header] carries it.
    When the name is "authorization" in any letter case, the value
    starts with "bearer " in any letter case: the token itself when it
    already does, "Bearer " and the token otherwise; so the value built
    is never prefixed twice, and feeding it back as the token builds
    the same headers.  Under any other name the token is sent as it
    is. *)
Theorem build_headers_bearer (token token_header : string) :
  token ≠ EmptyString →
  (PyStr.lower token_header = "authorization" →
   ∃ v, build_headers token token_header !! token_header = Some v
        ∧ PyStr.startswith "bearer " (PyStr.lower v) = true
        ∧ (if PyStr.startswith "bearer " (PyStr.lower token)
           then v = token else v = "Bearer " +:+ token)
        ∧ build_headers v token_header = build_headers token token_header)
  ∧ (PyStr.lower token_header ≠ "authorization" →
     build_headers token token_header !! token_header = Some token).
Proof.
  intros Htoken. rewrite (build_headers_token _ _ Htoken). split.
  - intros Hname. rewrite Hname, String.eqb_refl. cbn [andb].
    destruct (PyStr.startswith "bearer " (PyStr.lower token)) eqn:Hbearer; cbn [negb].
    + exists token. rewrite lookup_insert_eq. split_and!; [done..|].
      by rewrite (build_headers_token _ _ Htoken), Hname, String.eqb_refl, Hbearer.
    + exists ("Bearer " +:+ token). rewrite lookup_insert_eq.
      split_and!; [done|apply lower_bearer|done|].
      rewrite build_headers_token by done.
      by rewrite Hname, String.eqb_refl, lower_bearer.
  - intros Hname. apply String.eqb_neq in Hname. rewrite Hname. cbn [andb].
    by rewrite lookup_insert_eq.
Qed.

Lemma build_headers_bearer_scenario :
  ∃ v, build_headers "abc123" "Authorization" !! "Authorization" = Some v
       ∧ PyStr.startswith "bearer " (PyStr.lower v) = true
       ∧ v = "Bearer abc123"
       ∧ build_headers v "Authorization" = build_headers "abc123" "Authorization".
Proof.
  apply (build_headers_bearer "abc123" "Authorization"); done.
Defined.

(** X18.  Without a token the headers are [Accept: application/json]
    and nothing else.  With one, [Accept] keeps that value unless the
    token header is itself named "Accept", in which case the token
    replaces it; the headers never hold more than the two names. *)
Theorem build_headers_accept (token token_header : string) :
  build_headers EmptyString token_header = {[ "Accept" := "application/json" ]}
  ∧ (token_header ≠ "Accept" →
     build_headers token token_header !! "Accept" = Some "application/json")
  ∧ (token ≠ EmptyString → build_headers token "Accept" = {[ "Accept" := token ]})
  ∧ (∀ name, is_Some (build_headers token token_header !! name) →
       name = "Accept" ∨ (name = token_header ∧ token ≠ EmptyString)).
Proof.
  split_and!.
  - done.
  - intros Hname. destruct token as [|c token]; [done|].
    rewrite build_headers_token by done.
    by rewrite lookup_insert_ne.
  - intros Htoken. rewrite build_headers_token by done.
    cbn [PyStr.lower]. cbn. by rewrite insert_singleton.
  - intros name. destruct token as [|c token].
    + cbn. intros [v Hv]. apply lookup_singleton_Some in Hv as [<- _]. by left.
    + rewrite build_headers_token by done. intros [v Hv].
      apply lookup_insert_Some in Hv as [[<- _]|[_ Hv]]; [by right|].
      apply lookup_singleton_Some in Hv as [<- _]. by left.
Qed.

Lemma build_headers_accept_scenario :
  build_headers "abc123" "X-Api-Key" !! "Accept" = Some "application/json".
Proof.
  apply (build_headers_accept "abc123" "X-Api-Key"). done.
Defined.

(* ===================================================================== *)
(** ** Stripping and splitting padded text *)
(* ===================================================================== *)

Module StripFacts.
Import PyStr.

Lemma app_cons c (a b : string) : String c a +:+ b = String c (a +:+ b).
Proof. reflexivity. Qed.

Lemma app_nil_l (s : string) : EmptyString +:+ s = s.
Proof. reflexivity. Qed.

Lemma app_nil_r (s : string) : s +:+ EmptyString = s.
Proof.
  induction s as [|c s IH]; [done|]. by rewrite app_cons, IH.
Qed.

Lemma app_assoc (a b c : string) : (a +:+ b) +:+ c = a +:+ (b +:+ c).
Proof.
  induction a as [|x a IH]; [done|]. by rewrite !app_cons, IH.
Qed.

Lemma lstrip_pad p pad s :
  all_chars p pad = true → lstrip_with p (pad +:+ s) = lstrip_with p s.
Proof.
  induction pad as [|c pad IH]; [done|].
  rewrite app_cons. cbn [all_chars lstrip_with].
  intros [Hc Hpad]%andb_true_iff. rewrite Hc. by apply IH.
Qed.

Lemma lstrip_clean p s : starts_clean p s = true → lstrip_with p s = s.
Proof.
  destruct s as [|c s]; simpl; [done|]. intros Hc%negb_true_iff. by rewrite Hc.
Qed.

Lemma rstrip_cons p c s :
  p c = false → rstrip_with p (String c s) = String c (rstrip_with p s).
Proof.
  intros Hc. cbn [rstrip_with]. rewrite Hc. by destruct (rstrip_with p s).
Qed.

Lemma rstrip_app p a b :
  rstrip_with p (a +:+ b)
  = match rstrip_with p b with
    | EmptyString => rstrip_with p a
    | kept => a +:+ kept
    end.
Proof.
  induction a as [|c a IH].
  - rewrite app_nil_l. by destruct (rstrip_with p b).
  - rewrite app_cons. cbn [rstrip_with]. rewrite IH.
    destruct (rstrip_with p b) as [|k kept]; [done|].
    by destruct a.
Qed.

Lemma rstrip_pad p pad : all_chars p pad = true → rstrip_with p pad = EmptyString.
Proof.
  induction pad as [|c pad IH]; simpl; [done|].
  intros [Hc Hpad]%andb_true_iff. by rewrite IH, Hc.
Qed.

Lemma rstrip_clean p s : ends_clean p s = true → rstrip_with p s = s.
Proof.
  induction s as [|c s IH]; [done|].
  cbn [ends_clean rstrip_with]. destruct s as [|c' s].
  - simpl. intros Hc%negb_true_iff. by rewrite Hc.
  - intros Hs. by rewrite (IH Hs).
Qed.

(** Stripping removes the padding and nothing else. *)
Lemma strip_padded p pad1 s pad2 :
  all_chars p pad1 = true → all_chars p pad2 = true → unpadded p s = true →
  strip_with p (pad1 +:+ s +:+ pad2) = s.
Proof.
  intros H1 H2 [Hstart Hend]%andb_true_iff. unfold strip_with.
  rewrite (lstrip_pad _ _ _ H1).
  destruct s as [|c s].
  - rewrite app_nil_l, <- (app_nil_r pad2), (lstrip_pad _ _ _ H2).
    done.
  - rewrite lstrip_clean by done.
    by rewrite rstrip_app, (rstrip_pad _ _ H2), rstrip_clean.
Qed.

Lemma strip_left_padded p pad s :
  all_chars p pad = true → unpadded p s = true → strip_with p (pad +:+ s) = s.
Proof.
  intros Hpad Hs.
  pose proof (strip_padded p pad s EmptyString Hpad eq_refl Hs) as H.
  by rewrite app_nil_r in H.
Qed.

Lemma strip_unpadded p s : unpadded p s = true → strip_with p s = s.
Proof.
  intros Hs. rewrite <- (app_nil_r s) at 1.
  by apply (strip_padded p EmptyString s EmptyString).
Qed.

Lemma mem_app c a b : mem c (a +:+ b) = mem c a || mem c b.
Proof.
  induction a as [|x a IH]; [done|].
  rewrite app_cons. cbn [mem]. by rewrite IH, orb_assoc.
Qed.

Lemma mem_pad p c pad : all_chars p pad = true → p c = false → mem c pad = false.
Proof.
  induction pad as [|x pad IH]; simpl; [done|].
  intros [Hx Hpad]%andb_true_iff Hc. rewrite (IH Hpad Hc), orb_false_r.
  apply Ascii.eqb_neq. intros ->. congruence.
Qed.

Lemma split_first sep before after :
  mem sep before = false →
  split sep (before +:+ String sep after) = before :: split sep after.
Proof.
  induction before as [|c s IH].
  - rewrite app_nil_l. cbn [split]. by rewrite Ascii.eqb_refl.
  - rewrite app_cons. cbn [mem split].
    destruct (Ascii.eqb c sep) eqn:Hc; [by rewrite Ascii.eqb_sym, Hc|].
    rewrite Ascii.eqb_sym, Hc. cbn [orb]. intros Hs. by rewrite IH.
Qed.

Lemma split_none sep s : mem sep s = false → split sep s = [s].
Proof.
  induction s as [|c s IH]; [done|]. cbn [mem split].
  destruct (Ascii.eqb c sep) eqn:Hc; [by rewrite Ascii.eqb_sym, Hc|].
  rewrite Ascii.eqb_sym, Hc. cbn [orb]. intros Hs. by rewrite IH.
Qed.

End StripFacts.

(* ===================================================================== *)
(** ** [load_env] *)
(* ===================================================================== *)

Section EnvironFacts.

Context {E : Type}.

Lemma union_insert_bound (environ m : gmap string string) key value old :
  environ !! key = Some old → environ ∪ <[key := value]> m = environ ∪ m.
Proof.
  intros Hold. apply map_eq. intros i. rewrite !lookup_union.
  destruct (decide (i = key)) as [->|Hne].
  - rewrite Hold, lookup_insert_eq. by destruct (m !! key).
  - by rewrite lookup_insert_ne.
Qed.

Lemma load_env_lines_accepts lines : ∀ environ : gmap string string,
  load_env_lines E putenv_accepts lines environ
  = (environ ∪ list_to_map (omap env_assignment lines), None).
Proof.
  induction lines as [|line lines IH]; intros environ; cbn [load_env_lines].
  - cbn. by rewrite (right_id_L ∅ (∪)).
  - cbn [omap list_omap]. destruct (env_assignment line) as [[key value]|]; [|apply IH].
    unfold environ_setdefault, putenv_accepts.
    destruct (environ !! key) as [old|] eqn:Hold.
    + rewrite IH. cbn [list_to_map foldr fst snd]. f_equal.
      symmetry. by eapply union_insert_bound.
    + rewrite IH. cbn [list_to_map foldr fst snd]. f_equal.
      by rewrite <- insert_union_l, insert_union_r.
Qed.

Lemma lookup_assigned (assignments : list (string * string)) key :
  (list_to_map assignments : gmap string string) !! key = assigned key assignments.
Proof.
  unfold assigned. induction assignments as [|[k v] assignments IH]; [done|].
  cbn [list_to_map foldr fst snd]. destruct (decide (k = key)) as [->|Hne].
  - rewrite lookup_insert_eq. by rewrite filter_cons_True.
  - rewrite lookup_insert_ne by done. by rewrite filter_cons_False.
Qed.

Lemma load_env_lines_subseteq putenv lines : ∀ environ : gmap string string,
  environ ⊆ (load_env_lines E putenv lines environ).1.
Proof.
  induction lines as [|line lines IH]; intros environ; cbn [load_env_lines]; [done|].
  destruct (env_assignment line) as [[key value]|]; [|apply IH].
  unfold environ_setdefault.
  destruct (environ !! key) as [old|] eqn:Hold; [apply IH|].
  destruct (putenv key value) as [e|]; [done|].
  etrans; [|apply IH]. by apply insert_subseteq.
Qed.

(** X19.  With an operating system that accepts every name,
    [load_env] never raises, and a variable ends up with the value it
    had before the call when it had one, and otherwise with the value of
    the first line of the file that assigns it, if a line does: the
    environment wins over the file, and in the file the first
    assignment wins over later ones.  A missing file changes
    nothing. *)
Theorem load_env_first_wins (text : string) (environ : gmap string string) :
  (∀ key,
     (load_env E putenv_accepts (Some text) environ).1 !! key
     = match environ !! key with
       | Some value => Some value
       | None => assigned key (omap env_assignment (PyStr.splitlines text))
       end)
  ∧ (load_env E putenv_accepts (Some text) environ).2 = None
  ∧ load_env E putenv_accepts None environ = (environ, None).
Proof.
  unfold load_env. rewrite load_env_lines_accepts. split_and!; [|done..].
  intros key. cbn [fst]. rewrite lookup_union, lookup_assigned.
  destruct (environ !! key); [|by rewrite (left_id None _)].
  by destruct (assigned key _).
Qed.

(** X20.  Whatever the operating system refuses, [load_env] never
    changes or removes a variable that is set: the environment it leaves
    extends the one it found, also when it stops on an exception. *)
Theorem load_env_never_overwrites
    (putenv : string → string → option E) (file : option string)
    (environ : gmap string string) :
  environ ⊆ (load_env E putenv file environ).1.
Proof.
  destruct file as [text|]; [|done]. apply load_env_lines_subseteq.
Qed.

(** X21.  Loading the same file twice is loading it once. *)
Theorem load_env_idempotent (text : string) (environ : gmap string string) :
  load_env E putenv_accepts (Some text)
    (load_env E putenv_accepts (Some text) environ).1
  = load_env E putenv_accepts (Some text) environ.
Proof.
  unfold load_env. rewrite !load_env_lines_accepts. cbn [fst]. f_equal.
  by rewrite <- (assoc_L (∪)), (idemp_L (∪)).
Qed.

End EnvironFacts.

(** The token of the file is set, the one of the environment kept. *)
Lemma load_env_first_wins_scenario :
  (load_env Empty_set putenv_accepts (Some scenario_env_file)
     {[ "API_BASE_URL" := "http://x" ]}).1 !! "API_TOKEN"
  = Some "abc 123".
Proof.
  exact (proj1 (load_env_first_wins (E := Empty_set) scenario_env_file
                  {[ "API_BASE_URL" := "http://x" ]}) "API_TOKEN").
Defined.

Lemma blank_no_equals pad : blank pad = true → PyStr.mem equals_sign pad = false.
Proof. intros Hpad. by apply (StripFacts.mem_pad PyStr.is_space). Qed.

Lemma rstrip_body pad3 body pad4 :
  blank pad3 = true → blank pad4 = true → unpadded PyStr.is_space body = true →
  PyStr.strip (PyStr.rstrip_with PyStr.is_space (pad3 +:+ body +:+ pad4)) = body.
Proof.
  intros H3 H4 Hbody. pose proof Hbody as [Hstart Hend]%andb_true_iff.
  rewrite StripFacts.rstrip_app, (StripFacts.rstrip_app _ body pad4).
  rewrite (StripFacts.rstrip_pad _ _ H4), (StripFacts.rstrip_clean _ _ Hend).
  destruct body as [|c body].
  - by rewrite (StripFacts.rstrip_pad _ _ H3).
  - rewrite <- (StripFacts.app_nil_r (String c body)) at 1.
    by apply (StripFacts.strip_padded PyStr.is_space pad3 (String c body) EmptyString).
Qed.

Lemma env_assignment_raw line :
  PyStr.strip line ≠ EmptyString →
  env_assignment line
  = if PyStr.startswith "#" (PyStr.strip line) then None
    else match PyStr.split_once equals_sign (PyStr.strip line) with
         | None => None
         | Some (key, value) =>
             Some (PyStr.strip key,
                   PyStr.strip_chars double_quote (PyStr.strip value))
         end.
Proof. unfold env_assignment. by destruct (PyStr.strip line). Qed.

(** X22.  The form of a line of the file: blanks around the line,
    around the name and around the value do not count, nor do double
    quotes around the value, while blanks inside the quotes are kept.
    For a name that is not empty, has no [=] and does not start with
    [#], the line asks to set the name to the value. *)
Theorem env_assignment_line
    (pad1 key pad2 pad3 quote1 value quote2 pad4 : string) :
  blank pad1 = true → blank pad2 = true → blank pad3 = true → blank pad4 = true →
  key ≠ EmptyString →
  unpadded PyStr.is_space key = true →
  PyStr.mem equals_sign key = false →
  PyStr.startswith "#" key = false →
  all_chars is_quote quote1 = true → all_chars is_quote quote2 = true →
  unpadded is_quote value = true →
  unpadded PyStr.is_space (quote1 +:+ value +:+ quote2) = true →
  env_assignment
    (pad1 +:+ key +:+ pad2
     +:+ String equals_sign (pad3 +:+ (quote1 +:+ value +:+ quote2) +:+ pad4))
  = Some (key, value).
Proof.
  intros H1 H2 H3 H4 Hkey Hbare Heq Hhash Hq1 Hq2 Hvalue Hbody.
  set (body := quote1 +:+ value +:+ quote2) in *.
  set (kept := PyStr.rstrip_with PyStr.is_space (pad3 +:+ body +:+ pad4)).
  assert (PyStr.strip
            (pad1 +:+ key +:+ pad2 +:+ String equals_sign (pad3 +:+ body +:+ pad4))
          = (key +:+ pad2) +:+ String equals_sign kept) as Hraw.
  { unfold PyStr.strip, PyStr.strip_with.
    rewrite (StripFacts.lstrip_pad _ _ _ H1).
    rewrite StripFacts.lstrip_clean.
    - rewrite <- StripFacts.app_assoc, StripFacts.rstrip_app.
      by rewrite (StripFacts.rstrip_cons _ equals_sign).
    - destruct key as [|c key]; [done|].
      by apply andb_true_iff in Hbare as [Hstart _]. }
  assert (PyStr.startswith "#" ((key +:+ pad2) +:+ String equals_sign kept) = false)
    as Hstarts.
  { destruct key as [|c key]; [done|]. exact Hhash. }
  rewrite env_assignment_raw; rewrite Hraw.
  - rewrite Hstarts, LinkFacts.split_once_first.
    + f_equal. f_equal.
      * by apply (StripFacts.strip_padded PyStr.is_space EmptyString).
      * unfold kept. rewrite (rstrip_body _ _ _ H3 H4 Hbody).
        by apply (StripFacts.strip_padded is_quote).
    + by rewrite StripFacts.mem_app, Heq, blank_no_equals.
  - by destruct key.
Qed.

Lemma env_assignment_line_scenario :
  env_assignment
    (" API_TOKEN = " +:+ double_quote +:+ "abc 123" +:+ double_quote +:+ "  ")
  = Some ("API_TOKEN", "abc 123").
Proof.
  apply (env_assignment_line " " "API_TOKEN" " " " " double_quote "abc 123"
           double_quote "  "); done.
Defined.

(* ===================================================================== *)
(** ** [parse_link_header] on well-formed headers *)
(* ===================================================================== *)

Module RenderFacts.
Import PyStr StripFacts.

Lemma ends_clean_snoc p a c :
  ends_clean p (a +:+ String c EmptyString) = negb (p c).
Proof.
  induction a as [|x a IH]; [done|].
  rewrite app_cons. cbn [ends_clean]. rewrite IH.
  destruct a; by rewrite ?app_cons.
Qed.

Lemma parse_link_header_text text :
  parse_link_header (Some text) = foldl parse_link_part ∅ (split comma text).
Proof. by destruct text. Qed.

Lemma split_join pre r rest :
  mem comma pre = false →
  Forall (fun part => mem comma part = false) (r :: rest) →
  split comma (pre +:+ join ", " (r :: rest))
  = (pre +:+ r) :: ((fun part => " " +:+ part) <$> rest).
Proof.
  revert pre r. induction rest as [|r' rest IH]; intros pre r Hpre Hparts.
  - cbn [join]. apply split_none. rewrite mem_app, Hpre.
    by apply Forall_inv in Hparts.
  - inversion Hparts as [|? ? Hr Hrest]; subst.
    change (join ", " (r :: r' :: rest))
      with (r +:+ String comma (" " +:+ join ", " (r' :: rest))).
    rewrite <- app_assoc, split_first by (by rewrite mem_app, Hpre, Hr).
    by rewrite (IH " " r' eq_refl Hrest).
Qed.

Lemma render_link_no_comma pair :
  clean_link pair = true → mem comma (render_link pair) = false.
Proof.
  destruct pair as [rel url]. unfold clean_link, render_link. cbn [fst snd].
  rewrite !andb_true_iff, !negb_true_iff. intros [[[[Hurl _] _] Hrel] _].
  rewrite app_cons, app_nil_l. cbn [mem].
  rewrite mem_app, Hurl. cbn [orb]. rewrite !app_cons, app_nil_l. cbn [mem].
  change (mem comma (double_quote +:+ rel +:+ double_quote) = false).
  by rewrite mem_app, mem_app, Hrel.
Qed.

Lemma link_pair_render pre pair :
  blank pre = true → clean_link pair = true →
  link_pair (pre +:+ render_link pair) = Some pair.
Proof.
  destruct pair as [rel url]. unfold clean_link, render_link. cbn [fst snd].
  rewrite !andb_true_iff, !negb_true_iff.
  intros Hpre [[[[_ Hsemi] Hurl] _] Hrel].
  unfold link_pair.
  change (pre +:+ "<" +:+ url +:+ ">; rel=" +:+ double_quote +:+ rel +:+ double_quote)
    with (pre +:+ "<" +:+ url +:+ ">"
          +:+ String semicolon (" rel=" +:+ double_quote +:+ rel +:+ double_quote)).
  rewrite <- (app_assoc url), <- (app_assoc "<"), <- (app_assoc pre).
  rewrite LinkFacts.split_once_first.
  - assert (strip (" rel=" +:+ double_quote +:+ rel +:+ double_quote)
            = "rel=" +:+ double_quote +:+ rel +:+ double_quote) as ->.
    { apply (strip_left_padded is_space " "); [done|].
      unfold unpadded. cbn [starts_clean andb].
      change ("rel=" +:+ double_quote +:+ rel +:+ double_quote)
        with (("rel=" +:+ double_quote +:+ rel) +:+ double_quote).
      apply ends_clean_snoc. }
    change (startswith "rel=" ("rel=" +:+ double_quote +:+ rel +:+ double_quote))
      with true.
    cbn match. f_equal. f_equal.
    + change (drop 4 ("rel=" +:+ double_quote +:+ rel +:+ double_quote))
        with (double_quote +:+ rel +:+ double_quote).
      by apply (strip_padded is_quote).
    + assert (strip (pre +:+ "<" +:+ url +:+ ">") = "<" +:+ url +:+ ">") as ->.
      { apply (strip_left_padded is_space pre); [done|].
        unfold unpadded. cbn [starts_clean andb].
        change ("<" +:+ url +:+ ">") with (("<" +:+ url) +:+ ">").
        apply ends_clean_snoc. }
      by apply (strip_padded is_bracket "<" url ">").
  - rewrite !mem_app, Hsemi. cbn [mem orb]. rewrite orb_false_r.
    by apply (mem_pad is_space).
Qed.

End RenderFacts.

(** X23.  A header written in the usual form is read back: for links
    each written [<url>; rel="relation"] and separated by a comma and a
    space, [parse_link_header] binds every relation to the URL of the
    last link that carries it, and binds nothing else. *)
Theorem parse_link_header_round_trip (pairs : list (string * string)) :
  Forall (fun pair => clean_link pair = true) pairs →
  ∀ rel, parse_link_header (Some (render_links pairs)) !! rel = last_url rel pairs.
Proof.
  intros Hclean rel. rewrite RenderFacts.parse_link_header_text.
  rewrite LinkFacts.foldl_parse_link_part, lookup_empty.
  assert (omap link_pair (PyStr.split comma (render_links pairs)) = pairs) as ->;
    [|by destruct (last_url rel pairs)].
  unfold render_links. destruct Hclean as [|pair pairs Hpair Hpairs]; [done|].
  rewrite fmap_cons.
  rewrite <- (StripFacts.app_nil_l (PyStr.join ", " _)), RenderFacts.split_join.
  - cbn [omap list_omap].
    rewrite (RenderFacts.link_pair_render EmptyString pair eq_refl Hpair). f_equal.
    induction Hpairs as [|pair' pairs Hpair' _ IH]; [done|].
    rewrite !fmap_cons. cbn [omap list_omap].
    by rewrite (RenderFacts.link_pair_render " " pair' eq_refl Hpair'), IH.
  - done.
  - apply Forall_cons_2; [by apply RenderFacts.render_link_no_comma|].
    apply Forall_fmap. eapply Forall_impl; [exact Hpairs|].
    intros p. apply RenderFacts.render_link_no_comma.
Qed.

Lemma parse_link_header_round_trip_scenario :
  parse_link_header
    (Some (render_links [("next", "http://x/2"); ("prev", "http://x/0")])) !! "next"
  = Some "http://x/2".
Proof.
  apply (parse_link_header_round_trip [("next", "http://x/2"); ("prev", "http://x/0")]).
  repeat constructor.
Defined.

(* ===================================================================== *)
(** ** The output of [main]: columns and object keys *)
(* ===================================================================== *)

Lemma export_csv_run first rest output_fields :
  export_csv (first :: rest) output_fields
  = (csv_fieldnames output_fields (first :: rest),
     filter_fields (first :: rest) (csv_fieldnames output_fields (first :: rest))).
Proof.
  unfold export_csv, write_csv. rewrite filter_fields_fmap.
  destruct output_fields as [|field fields]; [done|].
  unfold output_projection. rewrite filter_fields_fmap.
  cbn [csv_fieldnames fmap list_fmap]. f_equal. f_equal.
  - by rewrite project_idempotent.
  - rewrite <- list_fmap_compose. apply list_fmap_ext. intros _ rec _. simpl.
    by rewrite project_idempotent.
Qed.

(** X24.  With records to write, the columns of the CSV file are the
    whitelist, or without one the field names of the first record in
    sorted order; every row has exactly these columns.  So a field that
    only later records have is not written, and a field a record lacks
    is written as [None]. *)
Theorem export_csv_columns
    (first : record) (rest : list record) (output_fields : list string) :
  ∃ header rows,
    export_csv (first :: rest) output_fields = (header, rows)
    ∧ header = match output_fields with
               | [] => sorted (Dict.keys first)
               | _ => output_fields
               end
    ∧ rows = filter_fields (first :: rest) header
    ∧ (∀ row field, row ∈ rows → is_Some (Dict.find row field) ↔ field ∈ header)
    ∧ (output_fields = [] → Sorted String.le header ∧ header ≡ₚ Dict.keys first).
Proof.
  exists (csv_fieldnames output_fields (first :: rest)),
    (filter_fields (first :: rest) (csv_fieldnames output_fields (first :: rest))).
  split_and!.
  - apply export_csv_run.
  - apply csv_fieldnames_nonempty.
  - done.
  - intros row field Hrow. rewrite filter_fields_fmap in Hrow.
    apply list_elem_of_fmap in Hrow as (rec & -> & _).
    unfold project. rewrite DictFacts.find_comprehension.
    case_decide as Hin.
    + split; [done|]. intros _. by eexists.
    + split; [by intros [? ?]|done].
  - intros ->. apply sorted_spec.
Qed.

Lemma s3_key_parts prefix filename :
  prefix ≠ EmptyString → filename ≠ EmptyString →
  s3_key prefix filename
  = PyStr.strip_with is_slash prefix +:+ "/" +:+ PyStr.strip_with is_slash filename.
Proof.
  intros Hprefix Hfilename. unfold s3_key.
  rewrite filter_cons_True, filter_cons_True by done. reflexivity.
Qed.

(** X25.  The object key is the prefix and the file name joined by one
    slash, whatever slashes the prefix is written with at either end;
    without a prefix it is the file name.  A prefix made of slashes only
    is not taken as no prefix: the key then starts with a slash. *)
Theorem s3_key_normalised (pad1 prefix pad2 filename : string) :
  all_chars is_slash pad1 = true → all_chars is_slash pad2 = true →
  unpadded is_slash prefix = true → prefix ≠ EmptyString →
  unpadded is_slash filename = true → filename ≠ EmptyString →
  s3_key (pad1 +:+ prefix +:+ pad2) filename = prefix +:+ "/" +:+ filename
  ∧ s3_key EmptyString filename = filename
  ∧ (pad1 ≠ EmptyString → s3_key pad1 filename = "/" +:+ filename).
Proof.
  intros H1 H2 Hprefix Hne Hfilename Hnef. split_and!.
  - rewrite s3_key_parts; [|by destruct pad1, prefix|done].
    by rewrite (StripFacts.strip_padded _ _ _ _ H1 H2 Hprefix),
      (StripFacts.strip_unpadded _ _ Hfilename).
  - unfold s3_key. rewrite filter_cons_False by (intros H; by apply H).
    rewrite filter_cons_True by done. cbn.
    apply (StripFacts.strip_unpadded is_slash _ Hfilename).
  - intros Hpad. rewrite s3_key_parts by done.
    rewrite (StripFacts.strip_unpadded _ _ Hfilename).
    pose proof (StripFacts.strip_padded is_slash pad1 EmptyString EmptyString
                  H1 eq_refl eq_refl) as Hstrip.
    rewrite StripFacts.app_nil_r in Hstrip. by rewrite Hstrip.
Qed.

Lemma s3_key_normalised_scenario :
  s3_key "/exports/daily/" "bookings_history.csv"
  = "exports/daily/bookings_history.csv".
Proof.
  apply (s3_key_normalised "/" "exports/daily" "/" "bookings_history.csv"); done.
Defined.
